(** * Cross-section profile construction: a shallow embedding

    The definitions below transcribe the numeric policy and the control flow
    of the cross-section scripts

      - [Scripts/MGS_XSec_Boreholes.py]      (path builder, borehole projector)
      - [Scripts/MGS_XSec_SegmentProfile.py] (surface profiler, confidence zones)
      - [Scripts/MGS_XSec_GridLines.py]      (grid / frame builder)

    Conventions of the embedding:

      - a Python [float] is read as an exact rational ([Q]); results are
        compared with [==] ([Qeq]).  The reading is used for statements
        that hold of the binary64 numbers Python computes with as well:
        orderings and bounds that rounding preserves, exact ties, and
        whole-number intervals and exaggerations, for which every quotient
        floored, every product and every sum of the grid code is exact in
        binary64.  The worked examples are also run in binary64 (module
        [Binary64]);
      - a nullable attribute of a table row is an [option];
      - an exception is a value of [exn] carried in a sum;
      - the geoprocessing engine ([arcpy]) is not modelled: what a tool
        returns is an argument of the function that calls it. *)

From Stdlib Require Import ZArith QArith Qround Qabs Lia Lqa.
From Stdlib Require Import List String Ascii Bool DecimalString DecimalNat.
From Stdlib Require Import Permutation Sorted.
From Corelib Require Import PrimFloat.
Import ListNotations.

Local Open Scope Q_scope.

(* ------------------------------------------------------------------ *)
(** ** Numbers *)

Module Num.

(** [a < b] and [a == b] on floats, as booleans. *)
Definition Qltb (a b : Q) : bool :=
  match Qcompare a b with Lt => true | _ => false end.

Definition Qeqb (a b : Q) : bool :=
  match Qcompare a b with Eq => true | _ => false end.

(** The literal [0.3048]. *)
Definition c0_3048 : Q := 3048 # 10000.

(** Python 3 [round(q)] with one argument: the nearest integer, a tie going
    to the even neighbour. *)
Definition py_round (q : Q) : Z :=
  let f := Qfloor q in
  match Qcompare (q - inject_Z f) (1 # 2) with
  | Lt => f
  | Gt => (f + 1)%Z
  | Eq => if Z.even f then f else (f + 1)%Z
  end.

(** Python [a // b] on floats. *)
Definition py_floordiv (a b : Q) : Q := inject_Z (Qfloor (a / b)).

(** [numpy.arange(start, stop, step)] on floats, for a positive step:
    [ceil((stop - start) / step)] values [start + i * step], none when that
    count is not positive. *)
Definition np_arange (start stop step : Q) : list Q :=
  let n := Z.to_nat (Qceiling ((stop - start) / step)) in
  map (fun i => start + inject_Z (Z.of_nat i) * step) (seq 0 n).

End Num.

(* ------------------------------------------------------------------ *)
(** ** Grid / frame builder ([MGS_XSec_GridLines.py]) *)

Module GridLines.
Import Num.

(** [def round2int(x, base): return base * round(x/base)].  The quotient
    rounded here is the exact one; Python rounds the binary64 quotient, so
    away from exact ties the two can differ by one multiple of a base that
    is not a whole number (for the doubles 9.75 and 1.3 the binary64
    quotient is the tie 7.5).  The properties below are stated for exact
    ties and for whole-number bases. *)
Definition round2int (x base : Q) : Q :=
  base * inject_Z (py_round (x / base)).

(** The last tick before [+1], as the three-way comparison of the source
    computes it from the rounded maximum and the value it was rounded from. *)
Definition newDistTickMax (distTickMax bound xInt : Q) : Q :=
  match Qcompare distTickMax bound with
  | Gt => distTickMax - xInt
  | Lt => distTickMax
  | Eq => distTickMax
  end.

(** [distList] for one grid configuration: the [if xUnits == ...] chain.
    No branch binds [distList] for another unit name.  The literal [0.3048]
    of the [Feet] and [Miles] branches is read as the decimal, which is not
    the double Python divides by, so on a path length within a rounding
    error of a whole number of feet these two branches can be one tick away
    from the script's list; the properties below are about the [Meters] and
    [Kilometers] branches. *)
Definition distList (xUnits : string) (Xmin Xmax xInt : Q) : option (list Q) :=
  if String.eqb xUnits "Meters" then
    let distTickMin := round2int Xmin xInt in
    let distTickMax := round2int Xmax xInt in
    Some (np_arange distTickMin (newDistTickMax distTickMax Xmax xInt + 1) xInt)
  else if String.eqb xUnits "Kilometers" then
    let distTickMin := round2int (Xmin / 1000) xInt in
    let distTickMax := round2int (Xmax / 1000) xInt in
    Some (np_arange distTickMin
            (newDistTickMax distTickMax (Xmax / 1000) xInt + 1) xInt)
  else if String.eqb xUnits "Feet" then
    let distTickMin := round2int (py_floordiv Xmin c0_3048) xInt in
    let distTickMax := round2int (py_floordiv Xmax c0_3048) xInt in
    Some (np_arange distTickMin
            (newDistTickMax distTickMax (Xmax / c0_3048) xInt + 1) xInt)
  else if String.eqb xUnits "Miles" then
    let distTickMin := round2int (py_floordiv Xmin c0_3048 / 5280) xInt in
    let distTickMax := round2int (py_floordiv Xmax c0_3048 / 5280) xInt in
    Some (np_arange distTickMin
            (newDistTickMax distTickMax ((Xmax / c0_3048) / 5280) xInt + 1) xInt)
  else None.

(** The ticks of the [Meters] branch, [Xmin = 0] as the script fixes it. *)
Definition distList_meters (Xmax xInt : Q) : list Q :=
  np_arange (round2int 0 xInt)
            (newDistTickMax (round2int Xmax xInt) Xmax xInt + 1) xInt.

End GridLines.

(* ------------------------------------------------------------------ *)
(** ** Borehole projector ([MGS_XSec_Boreholes.py]) *)

Module Boreholes.
Import Num.

(** [def cartesianToGeographic(angle)]: the [return] sits inside the [if],
    so the function falls off its end, returning [None], when
    [ctg < 0] is false.  The sum [ctg + 360] is exact here; in binary64 it
    is rounded, and reaches 360 itself for an angle just above -90 (see
    [cartesianToGeographic_reaches_360]). *)
Definition cartesianToGeographic (angle : Q) : option Q :=
  let ctg := -90 - angle in
  if Qltb ctg 0 then
    let ctg := ctg + 360 in
    Some ctg
  else None.

(** *** [locateEvents_Table] *)

(** A borehole point of [pts], with the scratch field [xDupDetect] that
    [AddField] appends (a new field is null in every row, and the function
    never calculates it). *)
Record BhPoint := {
  pt_OID : Z;
  pt_WELLID : string;
  xDupDetect : option Z
}.

(** A row of the event table written by [LocateFeaturesAlongRoutes]: the
    fields of the input point, its measure [fmp] and its offset. *)
Record EventRow := {
  ev_point : BhPoint;
  ev_fmp : Q;
  ev_Distance : Q
}.

(** The same row once [DeleteField] has dropped [xDupDetect]. *)
Record LocatedEvent := {
  le_OID : Z;
  le_WELLID : string;
  le_fmp : Q;
  le_Distance : Q
}.

Definition AddField_xDupDetect (pts : list BhPoint) : list BhPoint :=
  map (fun p => {| pt_OID := pt_OID p; pt_WELLID := pt_WELLID p;
                   xDupDetect := None |}) pts.

(** [LocateFeaturesAlongRoutes]: [locate p] lists the (measure, offset)
    pairs the tool finds for point [p]: none when [p] is out of reach, more
    than one when the route passes it more than once. *)
Definition LocateFeaturesAlongRoutes
    (locate : BhPoint -> list (Q * Q)) (pts : list BhPoint) : list EventRow :=
  flat_map (fun p =>
    map (fun md => {| ev_point := p; ev_fmp := fst md; ev_Distance := snd md |})
        (locate p)) pts.

(** Whether two values of a nullable LONG field are identical for
    [DeleteIdentical]; [nulls_identical] says how the tool compares two
    nulls. *)
Definition identical (nulls_identical : bool) (a b : option Z) : bool :=
  match a, b with
  | Some x, Some y => Z.eqb x y
  | None, None => nulls_identical
  | _, _ => false
  end.

(** [DeleteIdentical(table, field)]: of the rows that agree on [field], the
    first one stays. *)
Fixpoint DeleteIdentical (nulls_identical : bool) (seen : list (option Z))
    (rows : list EventRow) : list EventRow :=
  match rows with
  | [] => []
  | r :: rest =>
      let k := xDupDetect (ev_point r) in
      if existsb (identical nulls_identical k) seen
      then DeleteIdentical nulls_identical seen rest
      else r :: DeleteIdentical nulls_identical (k :: seen) rest
  end.

Definition DeleteField_xDupDetect (rows : list EventRow) : list LocatedEvent :=
  map (fun r => {| le_OID := pt_OID (ev_point r);
                   le_WELLID := pt_WELLID (ev_point r);
                   le_fmp := ev_fmp r;
                   le_Distance := ev_Distance r |}) rows.

Definition locateEvents_Table (nulls_identical : bool)
    (locate : BhPoint -> list (Q * Q))
    (pts : list BhPoint) (is_lines : bool) : list LocatedEvent :=
  let pts := AddField_xDupDetect pts in
  let eventLocTable := LocateFeaturesAlongRoutes locate pts in
  let nRows := List.length eventLocTable in
  let nPts := List.length pts in
  let eventLocTable :=
    if (nPts <? nRows)%nat && negb is_lines
    then DeleteIdentical nulls_identical [] eventLocTable
    else eventLocTable in
  DeleteField_xDupDetect eventLocTable.

(** *** [boreholes] *)

(** A row of the located points, as the search cursor reads it. *)
Record LocatedPoint := {
  OBJECTID : Z;
  WELLID : string;
  geom_M : Q;              (* [row[-1][0].M] *)
  zDEM : Q;                (* [row[elevID]] *)
  BOREH_DEPTH : Q;         (* [row[depthID]] *)
  LOC_ANGLE : Q;
  Distance : Q
}.

(** A row of the borehole sticks: the fields copied from the point, the
    two-vertex geometry, the two fields the loop fills and the new id. *)
Record BoreholeStick := {
  attrs : LocatedPoint;
  bhArray : list (Q * Q);
  LocalXSEC_Azimuth : option Q;
  DistFromSection : option Q;
  stick_id : string
}.

(** ["{}{}".format(id_pref, i)]; [id_pref] is the prefix [add_id] returns. *)
Definition format_id (id_pref : string) (i : nat) : string :=
  (id_pref ++ NilEmpty.string_of_uint (Nat.to_uint i))%string.

(** The body shared by the two branches of the loop; [unit_factor] is [1]
    in the [Meters] branch and [0.3048] in the [Feet] branch. *)
Definition make_stick (unit_factor ve : Q) (id_pref : string) (i : nat)
    (row : LocatedPoint) : BoreholeStick :=
  let X := geom_M row in
  let Ytop := zDEM row * unit_factor in
  let Ybot := Ytop - BOREH_DEPTH row * unit_factor in
  {| attrs := row;
     bhArray := [(X, Ytop * ve); (X, Ybot * ve)];
     LocalXSEC_Azimuth := cartesianToGeographic (LOC_ANGLE row);
     DistFromSection := Some (Distance row);
     stick_id := format_id id_pref i |}.

(** What the loop adds to the messages when [insertRow] raises. *)
Inductive Warning :=
  | CouldNotCreateFeature (objectid : Z).

(** One pass of the loop body: the [Meters] test, then the [Feet] test.
    [insertRow] tells whether the insert cursor accepts the row; a refused
    row is reported and the loop goes on. *)
Definition boreholes_step (elevUnits : string) (ve : Q) (id_pref : string)
    (insertRow : BoreholeStick -> bool)
    (st : nat * list BoreholeStick * list Warning) (row : LocatedPoint)
    : nat * list BoreholeStick * list Warning :=
  let branch (name : string) (unit_factor : Q) st :=
    let '(i, out, msgs) := st in
    if String.eqb elevUnits name then
      let i := S i in
      let vals := make_stick unit_factor ve id_pref i row in
      if insertRow vals
      then (i, out ++ [vals], msgs)
      else (i, out, msgs ++ [CouldNotCreateFeature (OBJECTID row)])
    else st in
  branch "Feet"%string c0_3048 (branch "Meters"%string 1 st).

Definition boreholes_run (elevUnits : string) (ve : Q) (id_pref : string)
    (insertRow : BoreholeStick -> bool) (locatedPoints : list LocatedPoint)
    : nat * list BoreholeStick * list Warning :=
  fold_left (boreholes_step elevUnits ve id_pref insertRow)
            locatedPoints (O, [], []).

Definition boreholes (elevUnits : string) (ve : Q) (id_pref : string)
    (insertRow : BoreholeStick -> bool) (locatedPoints : list LocatedPoint)
    : list BoreholeStick :=
  snd (fst (boreholes_run elevUnits ve id_pref insertRow locatedPoints)).

(** Schematic elevation of the first and of the second vertex. *)
Definition top (s : BoreholeStick) : Q := snd (nth 0 (bhArray s) (0, 0)).
Definition bottom (s : BoreholeStick) : Q := snd (nth 1 (bhArray s) (0, 0)).

(** The factor a unit name selects in the loop, if the name selects any. *)
Definition unit_factor (elevUnits : string) : option Q :=
  if String.eqb elevUnits "Meters"%string then Some 1
  else if String.eqb elevUnits "Feet"%string then Some c0_3048
  else None.

(** What is known of a stick written while reading the rows [all]. *)
Definition made_from (elevUnits : string) (ve : Q) (id_pref : string)
    (all : list LocatedPoint) (s : BoreholeStick) : Prop :=
  exists f i, unit_factor elevUnits = Some f /\
              In (attrs s) all /\
              s = make_stick f ve id_pref i (attrs s).

(** The row of the worked example: surface elevation 500, depth 100. *)
Definition example_row : LocatedPoint :=
  {| OBJECTID := 1; WELLID := "W1"%string; geom_M := 500; zDEM := 500;
     BOREH_DEPTH := 100; LOC_ANGLE := 0; Distance := 12 |}.

(** Two boreholes, the first of which the route passes twice. *)
Definition two_boreholes : list BhPoint :=
  [ {| pt_OID := 1; pt_WELLID := "A"%string; xDupDetect := None |};
    {| pt_OID := 2; pt_WELLID := "B"%string; xDupDetect := None |} ].

Definition first_located_twice (p : BhPoint) : list (Q * Q) :=
  if Z.eqb (pt_OID p) 1 then [(100, 5); (100, 5)] else [(200, 7)].

End Boreholes.

(* ------------------------------------------------------------------ *)
(** ** Exceptions and messages *)

(** The exceptions the scripts meet: a dictionary lookup that fails, a
    name that is not bound, a cursor with no row, a failing geoprocessing
    call, and the [SystemError] every handler raises. *)
Inductive exn :=
  | KeyError
  | NameError
  | StopIteration
  | ExecuteError
  | SystemError.

Definition result (A : Type) : Type := (exn + A)%type.

(* ------------------------------------------------------------------ *)
(** ** Path builder (the first [try] block of each script) *)

Module PathBuilder.

Local Open Scope string_scope.

(** [row[0] == code] for a nullable text field. *)
Definition field_is (v : option string) (code : string) : bool :=
  match v with
  | Some s => String.eqb s code
  | None => false
  end.

(** A row of [z_line] under the update cursor: [DIRECTION, QUAD]. *)
Definition QuadRow : Type := (option string * option string)%type.

(** The body of the update cursor: four [if] statements in sequence, the
    [else: pass] belonging to the last one. *)
Definition update_QUAD (row : QuadRow) : QuadRow :=
  let d := fst row in
  let row :=
    if field_is d "W-E" || field_is d "NW-SE" || field_is d "E-W"
    then (d, Some "Northwest") else row in
  let row :=
    if field_is d "SW-NE" || field_is d "S-N" || field_is d "N-S"
    then (d, Some "Southwest") else row in
  let row := if field_is d "NE-SW" then (d, Some "Northeast") else row in
  let row := if field_is d "SE-NW" then (d, Some "Southeast") else row in
  row.

(** The eight direction codes the cursor knows. *)
Definition direction_codes : list string :=
  ["W-E"; "NW-SE"; "E-W"; "SW-NE"; "S-N"; "N-S"; "NE-SW"; "SE-NW"].

Definition recognized (d : option string) : bool :=
  existsb (field_is d) direction_codes.

(** Order of two [QUAD] values under the sort ["QUAD D"]: [true] when [a]
    may come before [b].  [nulls_first] is where the workspace puts nulls in
    a descending sort. *)
Definition quad_before (nulls_first : bool) (a b : option string) : bool :=
  match a, b with
  | Some x, Some y => String.leb y x
  | None, None => true
  | None, Some _ => nulls_first
  | Some _, None => negb nulls_first
  end.

Fixpoint insert_row (nulls_first : bool) (r : QuadRow) (l : list QuadRow)
    : list QuadRow :=
  match l with
  | [] => [r]
  | x :: rest =>
      if quad_before nulls_first (snd r) (snd x) then r :: l
      else x :: insert_row nulls_first r rest
  end.

Definition sort_QUAD_desc (nulls_first : bool) (l : list QuadRow)
    : list QuadRow :=
  fold_right (insert_row nulls_first) [] l.

(** [cpDict] and [getCPValue]: a key that is not in the dictionary, [None]
    included, raises [KeyError]. *)
Definition cpDict : list (string * string) :=
  [("Northwest", "UPPER_LEFT"); ("Southwest", "LOWER_LEFT");
   ("Northeast", "UPPER_RIGHT"); ("Southeast", "LOWER_RIGHT")].

Fixpoint dict_get (dict : list (string * string)) (key : string)
    : option string :=
  match dict with
  | [] => None
  | (k, v) :: rest => if String.eqb k key then Some v else dict_get rest key
  end.

Definition getCPValue (quadrant : option string) : result string :=
  match quadrant with
  | None => inl KeyError
  | Some q =>
      match dict_get cpDict q with
      | Some cp => inr cp
      | None => inl KeyError
      end
  end.

(** What the block leaves in [zm_line]: the line itself when it already
    carries Z and M, or the route that [CreateRoutes] builds from the
    coordinate priority [cp]. *)
Inductive Path :=
  | Reused
  | CreateRoutes (cp : string).

(** The body of the [try] block from [hasZ]/[hasM] on.  [directions] are
    the [DIRECTION] values of the rows of [z_line]; [QUAD] is a new field,
    null in every row before the cursor runs.  After the cursor comes
    [del row, cursor]: on a table with no row the loop has bound no [row]
    (every earlier loop of the script ends with the same [del]), and the
    statement raises [NameError].  Otherwise [cpDir] is read from the first
    row of the table sorted by [QUAD], descending. *)
Definition build_path (nulls_first hasZ hasM : bool)
    (directions : list (option string)) : result Path :=
  if hasZ && hasM then inr Reused
  else
    let z_line := map (fun d => (d, @None string)) directions in
    match map update_QUAD z_line with
    | [] => inl NameError
    | first :: others =>
        let row := hd first (sort_QUAD_desc nulls_first (first :: others)) in
        let cpDir := snd row in
        match getCPValue cpDir with
        | inl e => inl e
        | inr cp => inr (CreateRoutes cp)
        end
    end.

(** The block with its handler ([MGS_XSec_Boreholes.py], ERROR 002): any
    exception is reported and replaced by [SystemError]. *)
Definition path_block (nulls_first hasZ hasM : bool)
    (directions : list (option string)) (Value : string)
    : list string * result Path :=
  match build_path nulls_first hasZ hasM directions with
  | inl _ =>
      (["ERROR 002: Failed to create the elevation route polyline for " ++ Value],
       inl SystemError)
  | inr p => ([], inr p)
  end.

End PathBuilder.

(* ------------------------------------------------------------------ *)
(** ** The loop over the traverse lines *)

Module Driver.

Local Open Scope string_scope.

(** One [try: ... except: AddMsgAndPrint(...); raise SystemError] block of
    the loop body.  [raises Value] tells whether an exception leaves the
    body of the block for the line [Value], so that the block's handler
    runs; a failure that is caught inside the body does not count
    ([fieldNone] returns [False] on any exception, the two [try]/[except]
    around the [zDEM] field and the one around [insertRow] go on after a
    failure).  [error_message Value] is the text the handler prints. *)
Record TryBlock := {
  raises : string -> bool;
  error_message : string -> string
}.

(** The log: of the messages of a run, the line opening each traverse line
    and the handlers' messages are kept. *)
Definition Log : Type := list string.

Definition analyzing (Value : string) : string :=
  "*Analyzing " ++ Value ++ "...*".

(** The [try] blocks of one pass of the loop body, in order.  [Some e]:
    the exception that leaves the body. *)
Fixpoint run_blocks (blocks : list TryBlock) (Value : string)
    : Log * option exn :=
  match blocks with
  | [] => ([], None)
  | b :: rest =>
      if raises b Value
      then ([error_message b Value], Some SystemError)
      else run_blocks rest Value
  end.

(** [for Value in allValue: <blocks>].  Nothing encloses the loop, so an
    exception that leaves the body leaves the loop, and the script ends with
    it. *)
Fixpoint run_lines (blocks : list TryBlock) (allValue : list string)
    : Log * option exn :=
  match allValue with
  | [] => ([], None)
  | Value :: rest =>
      match run_blocks blocks Value with
      | (log, Some e) => (analyzing Value :: log, Some e)
      | (log, None) =>
          let (log', r) := run_lines blocks rest in
          (((analyzing Value :: log) ++ log')%list, r)
      end
  end.

(** The stages of [MGS_XSec_Boreholes.py] and the bedrock part of
    [MGS_XSec_SegmentProfile.py]. *)
Inductive Stage :=
  | PathStage | BoreholesStage | LithologyStage | ScreensStage | CleanupStage
  | SurfaceStage | ConfidenceStage | SegmentStage.

(** The blocks of the two loops.  [fails Value stage] tells whether an
    exception leaves the body of the block of [stage] for the line [Value].
    Two handlers format a path through [os.path.basename]:
    [scratchDir_basename] stands for [os.path.basename(scratchDir)] and
    [bdrkDEM_basename] for [os.path.basename(bdrkDEM)]. *)
Definition boreholes_script (fails : string -> Stage -> bool)
    (scratchDir_basename : string) : list TryBlock :=
  [ {| raises := fun v => fails v PathStage;
       error_message := fun v =>
         "ERROR 002: Failed to create the elevation route polyline for " ++ v |};
    {| raises := fun v => fails v BoreholesStage;
       error_message := fun v =>
         "ERROR 003: Failed to create the boreholes for " ++ v |};
    {| raises := fun v => fails v LithologyStage;
       error_message := fun v =>
         "ERROR 004: Failed to create lithology sticks for " ++ v |};
    {| raises := fun v => fails v ScreensStage;
       error_message := fun v =>
         "ERROR 005: Failed to create screen sticks for " ++ v |};
    {| raises := fun v => fails v CleanupStage;
       error_message := fun _ =>
         "ERROR 006: Failed to clean up " ++ scratchDir_basename |} ].

Definition bedrock_script (fails : string -> Stage -> bool)
    (bdrkDEM_basename scratchDir_basename : string) : list TryBlock :=
  [ {| raises := fun v => fails v SurfaceStage;
       error_message := fun v =>
         "ERROR 009: Failed to create bedrock surface for " ++ v |};
    {| raises := fun v => fails v ConfidenceStage;
       error_message := fun _ =>
         "ERROR 010: Failed to create confidence zone for "
         ++ bdrkDEM_basename |};
    {| raises := fun v => fails v SegmentStage;
       error_message := fun _ =>
         "ERROR 011: Failed to segment the bedrock profile." |};
    {| raises := fun v => fails v CleanupStage;
       error_message := fun _ =>
         "ERROR 012: Failed to clean up " ++ scratchDir_basename |} ].

(** A run of two lines in which the path of the first cannot be built. *)
Definition fails_path_of_A (v : string) (s : Stage) : bool :=
  match s with
  | PathStage => String.eqb v "A"
  | _ => false
  end.

(** A run of two lines in which the surface of the first cannot be draped. *)
Definition fails_surface_of_A (v : string) (s : Stage) : bool :=
  match s with
  | SurfaceStage => String.eqb v "A"
  | _ => false
  end.

(** A run of two lines in which the confidence zone of the first cannot be
    built. *)
Definition fails_confidence_of_A (v : string) (s : Stage) : bool :=
  match s with
  | ConfidenceStage => String.eqb v "A"
  | _ => false
  end.

End Driver.

(* ------------------------------------------------------------------ *)
(** ** Surface profiler and confidence zones ([MGS_XSec_SegmentProfile.py]) *)

Module SegmentProfile.
Import Num.

Record Extent := { XMin : Q; XMax : Q }.

(** A single-part remainder of the line outside the raster footprint. *)
Record Geometry := { extent : Extent; length : Q }.

Definition origin_on_left (cpDir : string) : bool :=
  String.eqb cpDir "Northwest" || String.eqb cpDir "Southwest".

(** [moveLength] of the bedrock part: both tests joined by [and]. *)
Definition moveLength_bdrk (cpDir : string)
    (profileAlign mainLineAlign : Extent) (geometries : list Geometry) : Q :=
  fold_left (fun moveLength geometry =>
    if origin_on_left cpDir then
      if Qltb (XMin mainLineAlign) (XMin profileAlign)
         && Qeqb (XMin (extent geometry)) (XMin mainLineAlign)
      then moveLength + length geometry else moveLength
    else
      if Qltb (XMax profileAlign) (XMax mainLineAlign)
         && Qeqb (XMax (extent geometry)) (XMax mainLineAlign)
      then moveLength + length geometry else moveLength)
    geometries 0.

(** [moveLength] of the groundwater part: both tests joined by [or]. *)
Definition moveLength_gwl (cpDir : string)
    (profileAlign mainLineAlign : Extent) (geometries : list Geometry) : Q :=
  fold_left (fun moveLength geometry =>
    if origin_on_left cpDir then
      if Qltb (XMin mainLineAlign) (XMin profileAlign)
         || Qeqb (XMin (extent geometry)) (XMin mainLineAlign)
      then moveLength + length geometry else moveLength
    else
      if Qltb (XMax profileAlign) (XMax mainLineAlign)
         || Qeqb (XMax (extent geometry)) (XMax mainLineAlign)
      then moveLength + length geometry else moveLength)
    geometries 0.

(** *** Confidence zones *)

(** A piece of the union of the footprint with the buffer: which of the two
    inputs it lies in. *)
Record Piece := { in_extent : bool; in_buffer : bool }.

(** A row of the union's output with [ONLY_FID], and the added
    [CONFIDENCE] field: [FID_<input>] is the object id of the input feature
    the piece comes from, [-1] when it comes from none. *)
Record UnionRow := {
  FID_extent : Z;
  FID_buff : Z;
  CONFIDENCE : option string
}.

(** [Union([featExtent, buffer], ..., "ONLY_FID")] followed by [AddField].
    Each input holds one feature ([RasterDomain] writes one polygon, the
    buffer is dissolved with [ALL]), whose object id is 1. *)
Definition Union_ONLY_FID (pieces : list Piece) : list UnionRow :=
  map (fun p => {| FID_extent := if in_extent p then 1 else (-1);
                   FID_buff := if in_buffer p then 1 else (-1);
                   CONFIDENCE := None |}) pieces.

Definition set_CONFIDENCE (row : UnionRow) (v : string) : UnionRow :=
  {| FID_extent := FID_extent row; FID_buff := FID_buff row;
     CONFIDENCE := Some v |}.

(** The body of the update cursor on one row: [None] when the row is
    deleted, the row as last updated otherwise. *)
Definition classify_row (row : UnionRow) : option UnionRow :=
  let deleted := Z.eqb (FID_extent row) (-1) in
  let row :=
    if Z.eqb (FID_extent row) 1 && Z.eqb (FID_buff row) (-1)
    then set_CONFIDENCE row "INFERRED" else row in
  let row :=
    if Z.eqb (FID_extent row) 1 && Z.eqb (FID_buff row) 1
    then set_CONFIDENCE row "CONFIDENT" else row in
  if deleted then None else Some row.

(** The loop [for row in cursor] over the whole table: what the table
    holds when the loop ends.  The statement that follows the loop is in
    [update_CONFIDENCE]. *)
Fixpoint classify (rows : list UnionRow) : list UnionRow :=
  match rows with
  | [] => []
  | row :: rest =>
      match classify_row row with
      | None => classify rest
      | Some row' => row' :: classify rest
      end
  end.

(** The classification of the pieces of a union; the union holds the
    footprint's own piece, so its table is never without a row. *)
Definition confidenceZone (pieces : list Piece) : list UnionRow :=
  classify (Union_ONLY_FID pieces).

(** The [with arcpy.da.UpdateCursor(...)] statement as a whole: the loop,
    then [del row, cursor].  On a table with no row the loop binds no [row]
    (the loop before it ended with the same [del]), and [del] raises
    [NameError]; a row that the loop deleted from the table is still bound
    to the name. *)
Definition update_CONFIDENCE (rows : list UnionRow)
    : result (list UnionRow) :=
  match rows with
  | [] => inl NameError
  | _ :: _ => inr (classify rows)
  end.

(** A line from x = 0 to x = 1000 whose raster reaches from 100 to 800: one
    remainder at each end. *)
Definition line_extent : Extent := {| XMin := 0; XMax := 1000 |}.
Definition profile_extent : Extent := {| XMin := 100; XMax := 800 |}.
Definition remainders : list Geometry :=
  [ {| extent := {| XMin := 0; XMax := 100 |}; length := 100 |};
    {| extent := {| XMin := 800; XMax := 1000 |}; length := 200 |} ].

End SegmentProfile.

(* ------------------------------------------------------------------ *)
(** ** The worked examples in binary64 *)

(** The same expressions over the kernel's IEEE 754 binary64 floats, the
    numbers Python computes with, to check the examples the rational
    reading is run on. *)
Module Binary64.

Set Warnings "-inexact-float".
Local Open Scope float_scope.

(** The two schematic elevations of the [Feet] branch of [boreholes]. *)
Definition stick_Feet (zDEM depth ve : float) : float * float :=
  let Ytop := zDEM * 0.3048 in
  let Ybot := Ytop - depth * 0.3048 in
  (Ytop * ve, Ybot * ve).

(** The two schematic elevations of the [Meters] branch. *)
Definition stick_Meters (zDEM depth ve : float) : float * float :=
  let Ytop := zDEM in
  let Ybot := Ytop - depth in
  (Ytop * ve, Ybot * ve).

Definition cartesianToGeographic (angle : float) : option float :=
  let ctg := -90 - angle in
  if ctg <? 0 then
    let ctg := ctg + 360 in
    Some ctg
  else None.

Set Warnings "+inexact-float".

End Binary64.

(* ------------------------------------------------------------------ *)
(** ** Messages ([AddMsgAndPrint]) and the list of traverse lines
       ([unique_values]) *)

Module Messages.

Definition newline : ascii := "010"%char.

(** [msg.split('\n')]: the pieces between the newlines, empty pieces kept. *)
Fixpoint split_newline (msg : string) : list string :=
  match msg with
  | EmptyString => [EmptyString]
  | String c rest =>
      let parts := split_newline rest in
      if Ascii.eqb c newline then EmptyString :: parts
      else match parts with
           | [] => [String c EmptyString]
           | p :: ps => String c p :: ps
           end
  end.

(** What reaches the geoprocessing messages. *)
Inductive GPMessage :=
  | AddMessage (text : string)
  | AddWarning (text : string)
  | AddError (text : string).

Definition gp_text (m : GPMessage) : string :=
  match m with
  | AddMessage t | AddWarning t | AddError t => t
  end.

(** [AddMsgAndPrint(msg, severity)] for a text [msg]: what is printed, and
    the geoprocessing messages, one per line of [msg]; a severity other
    than 0, 1 or 2 adds none. *)
Definition AddMsgAndPrint (msg : string) (severity : Z)
    : list string * list GPMessage :=
  ([msg],
   flat_map (fun line =>
     if Z.eqb severity 0 then [AddMessage line]
     else if Z.eqb severity 1 then [AddWarning line]
     else if Z.eqb severity 2 then [AddError line]
     else []) (split_newline msg)).

(** Number of newline characters of a text. *)
Fixpoint count_newlines (msg : string) : nat :=
  match msg with
  | EmptyString => O
  | String c rest =>
      if Ascii.eqb c newline then S (count_newlines rest)
      else count_newlines rest
  end.

(** [sorted(...)]: insertion of each value in turn into a sorted list,
    strings compared character by character. *)
Fixpoint insert_sorted (x : string) (l : list string) : list string :=
  match l with
  | [] => [x]
  | y :: rest =>
      if String.leb x y then x :: l else y :: insert_sorted x rest
  end.

Definition sorted (l : list string) : list string :=
  fold_right insert_sorted [] l.

(** Strictly before, in the order [sorted] uses. *)
Definition str_lt (a b : string) : Prop := String.compare a b = Lt.

(** [unique_values(table, field)]: [sorted({row[0] for row in cursor})].
    The set is listed in the order of first occurrence; [sorted] does not
    depend on that order (see [sorted_of_permutation]). *)
Definition unique_values (column : list string) : list string :=
  sorted (nodup string_dec column).

End Messages.

(* ------------------------------------------------------------------ *)
(** ** Schematic transform ([plan2side]) and [limitString] *)

Module Plan2Side.
Import Num.

(** A vertex with its planar coordinates, elevation and measure. *)
Record Point := { pX : Q; pY : Q; pZ : Q; pM : Q }.

(** A feature is a list of parts, a part a list of vertices. *)
Definition Part : Type := list Point.
Definition Shape : Type := list Part.

(** The body of the inner [while]: X from M, then Y from Z under the
    [Meters] test and under the [Feet] test. *)
Definition move_point (elevUnits : string) (moveLength ve : Q)
    (pntOld : Point) : Point :=
  let p := {| pX := pM pntOld + moveLength; pY := pY pntOld;
              pZ := pZ pntOld; pM := pM pntOld |} in
  let p :=
    if String.eqb elevUnits "Meters"
    then {| pX := pX p; pY := pZ p * ve; pZ := pZ p; pM := pM p |}
    else p in
  let p :=
    if String.eqb elevUnits "Feet"
    then {| pX := pX p; pY := (pZ p * c0_3048) * ve; pZ := pZ p; pM := pM p |}
    else p in
  p.

(** [plan2side(ZMLines, ve)] with the globals [elevUnits] and
    [moveLength]: every vertex of every part of every row. *)
Definition plan2side (elevUnits : string) (moveLength ve : Q)
    (ZMLines : list Shape) : list Shape :=
  map (map (map (move_point elevUnits moveLength ve))) ZMLines.

(** [limitString(string, limit)] for a limit that is not negative. *)
Definition limitString (string : String.string) (limit : nat)
    : String.string :=
  if (limit <? String.length string)%nat
  then String.substring 0 limit string
  else string.

End Plan2Side.

(* ------------------------------------------------------------------ *)
(** ** The two tests of the [moveLength] loops *)

Module Offsets.
Import Num SegmentProfile.

(** [profileAlign.extent.XMin > mainLineAlign.extent.XMin], or the test on
    [XMax] when the origin is on the right. *)
Definition profile_offset (cpDir : string)
    (profileAlign mainLineAlign : Extent) : bool :=
  if origin_on_left cpDir
  then Qltb (XMin mainLineAlign) (XMin profileAlign)
  else Qltb (XMax profileAlign) (XMax mainLineAlign).

(** [geometry.extent.XMin == mainLineAlign.extent.XMin], or the test on
    [XMax] when the origin is on the right. *)
Definition at_origin_end (cpDir : string) (mainLineAlign : Extent)
    (geometry : Geometry) : bool :=
  if origin_on_left cpDir
  then Qeqb (XMin (extent geometry)) (XMin mainLineAlign)
  else Qeqb (XMax (extent geometry)) (XMax mainLineAlign).

Definition total_length (geometries : list Geometry) : Q :=
  fold_right (fun g acc => length g + acc) 0 geometries.

End Offsets.

(* ------------------------------------------------------------------ *)
(** ** Frame bounds and tick positions ([MGS_XSec_GridLines.py]) *)

Module GridFrame.
Import Num GridLines.

(** Python [int(q)] on a float: truncation toward zero. *)
Definition py_int (q : Q) : Z :=
  if Qltb q 0 then Qceiling q else Qfloor q.

(** [Ymax]: the three-way comparison of the topographic profile's maximum
    with the boreholes' maximum. *)
Definition Ymax_of (topoYMax bhYmax : Q) : Q :=
  match Qcompare topoYMax bhYmax with
  | Gt => topoYMax
  | Lt => bhYmax
  | Eq => bhYmax
  end.

(** The three-way comparison of the boreholes' minimum with the scaled
    bedrock minimum. *)
Definition lower_of (bhYmin scaled : Q) : Q :=
  match Qcompare bhYmin scaled with
  | Gt => scaled
  | Lt => bhYmin
  | Eq => bhYmin
  end.

(** [Ymin]: [bdrkYmin] is the bedrock profile's minimum when that profile
    exists; [ve] is read with [int].  With a bedrock profile and a unit name
    that is neither [Feet] nor [Meters] no branch binds [Ymin]. *)
Definition Ymin_of (elevUnits : string) (bhYmin : Q) (bdrkYmin : option Q)
    (ve : Z) : option Q :=
  match bdrkYmin with
  | Some bdrkYmin =>
      let Ymin :=
        if String.eqb elevUnits "Feet"
        then Some (lower_of bhYmin ((bdrkYmin * c0_3048) * inject_Z ve))
        else None in
      if String.eqb elevUnits "Meters"
      then Some (lower_of bhYmin (bdrkYmin * inject_Z ve))
      else Ymin
  | None => Some bhYmin
  end.

(** [newYmin]: the [Meters] branch and the [else] branch.  [yInt] is the
    interval, read with [int] and with [float]; [ve] is read with
    [float].  Products and quotients are exact here.  They are exact in
    binary64 too in the [Meters] branch when [ve] is a whole number (the
    script also reads it with [int]); for another [ve] a rounded product
    can end one rounding error above [Ymin], and the [else] branch divides
    by the double [0.3048]. *)
Definition newYmin (yUnits : string) (Ymin ve : Q) (yInt : Z) : Q :=
  if String.eqb yUnits "Meters" then
    let botY := round2int (Ymin / ve) (inject_Z yInt) in
    if Qltb (inject_Z (py_int (Ymin / ve))) botY
    then (botY * ve) - (inject_Z yInt * ve)
    else botY * ve
  else
    let botY := round2int ((Ymin / ve) / c0_3048) (inject_Z yInt) in
    if Qltb (inject_Z (py_int ((Ymin / ve) / c0_3048))) botY
    then (botY * ve * c0_3048) - (inject_Z yInt * ve * c0_3048)
    else botY * c0_3048 * ve.

(** [elevTickMax] under [Meters] and under [Feet]; no branch binds it for
    another unit name. *)
Definition elevTickMax (yUnits : string) (Ymax ve : Q) (yInt : Z)
    : option Q :=
  if String.eqb yUnits "Meters"
  then Some (round2int (py_floordiv Ymax ve) (inject_Z yInt))
  else if String.eqb yUnits "Feet"
  then Some (round2int (py_floordiv Ymax ve / c0_3048) (inject_Z yInt))
  else None.

(** [(newElevTickMax, newYmax)] of the block that builds the frame: an
    [if] and an [elif], so nothing is bound when the two sides are equal.
    The two sides are compared as exact numbers; the script compares the
    rounded product, which is the same number under [Meters] when [ve] is a
    whole number. *)
Definition frame_top (yUnits : string) (Ymax ve : Q) (yInt : Z)
    : option (Q * Q) :=
  match elevTickMax yUnits Ymax ve yInt with
  | None => None
  | Some elevTickMax =>
      if String.eqb yUnits "Feet" then
        match Qcompare (elevTickMax * c0_3048 * ve) Ymax with
        | Lt => Some (elevTickMax + inject_Z yInt,
                      (elevTickMax * c0_3048 * ve)
                      + (inject_Z yInt * c0_3048 * ve))
        | Gt => Some (elevTickMax, elevTickMax * c0_3048 * ve)
        | Eq => None
        end
      else if String.eqb yUnits "Meters" then
        match Qcompare (elevTickMax * ve) Ymax with
        | Lt => Some (elevTickMax + inject_Z yInt,
                      (elevTickMax * ve) + (inject_Z yInt * ve))
        | Gt => Some (elevTickMax, elevTickMax * ve)
        | Eq => None
        end
      else None
  end.

(** [elevTickMin] under [Meters] and under [Feet], from [newYmin].  The
    floor is that of the exact quotient, as Python's [//] computes it from
    the two doubles; [newYmin] itself is the script's number when [ve] is a
    whole number (see [newYmin]). *)
Definition elevTickMin (yUnits : string) (newYmin ve : Q) (yInt : Z)
    : option Q :=
  if String.eqb yUnits "Meters"
  then Some (round2int (py_floordiv newYmin ve) (inject_Z yInt))
  else if String.eqb yUnits "Feet"
  then Some (round2int (py_floordiv newYmin ve / c0_3048) (inject_Z yInt))
  else None.

(** [elevList]: [np.arange(elevTickMin, newElevTickMax+1, float(yInt))],
    when the names it reads are bound. *)
Definition elevList (yUnits : string) (Ymin Ymax ve : Q) (yInt : Z)
    : option (list Q) :=
  match elevTickMin yUnits (newYmin yUnits Ymin ve yInt) ve yInt,
        frame_top yUnits Ymax ve yInt with
  | Some elevTickMin, Some (newElevTickMax, _) =>
      Some (np_arange elevTickMin (newElevTickMax + 1) (inject_Z yInt))
  | _, _ => None
  end.

(** The schematic x of a distance tick [x], as the tick loop converts it. *)
Definition distpnt_x (xUnits : string) (x : Q) : option Q :=
  if String.eqb xUnits "Meters" then Some x
  else if String.eqb xUnits "Kilometers" then Some (x * 1000)
  else if String.eqb xUnits "Feet" then Some (x * c0_3048)
  else if String.eqb xUnits "Miles" then Some ((x * 5280) * c0_3048)
  else None.

End GridFrame.

(* ------------------------------------------------------------------ *)
(** ** Interval sticks ([MGS_XSec_Boreholes.py]) *)

Module Intervals.

(** [Dist2Xsec = abs(!Distance!)] and
    [PERCENT_DIST = (!Dist2Xsec!/buff) * 100], [buff] being the number in
    the selection distance. *)
Definition Dist2Xsec (Distance : Q) : Q := Qabs Distance.

Definition PERCENT_DIST (Distance buff : Q) : Q :=
  (Dist2Xsec Distance / buff) * 100.

End Intervals.

(* ------------------------------------------------------------------ *)
(** ** What the loop of [boreholes] writes *)

Module BoreholesLoop.
Import Num Boreholes.

(** The rows as the loop numbers them: the row read when the counter is
    [i] gets the number [i + 1]. *)
Fixpoint sticks_from (unit_factor ve : Q) (id_pref : string) (i : nat)
    (rows : list LocatedPoint) : list BoreholeStick :=
  match rows with
  | [] => []
  | row :: rest =>
      make_stick unit_factor ve id_pref (S i) row
      :: sticks_from unit_factor ve id_pref (S i) rest
  end.

End BoreholesLoop.

(* ================================================================== *)
(** * Properties *)

(* ------------------------------------------------------------------ *)
(** ** Arithmetic of the number model *)

Section NumFacts.
Import Num.

Lemma Qltb_true a b : Qltb a b = true <-> a < b.
Proof.
  unfold Qltb. rewrite Qlt_alt.
  destruct (Qcompare a b); split; congruence.
Qed.

Lemma Qltb_false a b : Qltb a b = false <-> b <= a.
Proof.
  rewrite <- Bool.not_true_iff_false, Qltb_true. split.
  - apply Qnot_lt_le.
  - apply Qle_not_lt.
Qed.

Lemma Qeqb_true a b : Qeqb a b = true <-> a == b.
Proof.
  unfold Qeqb. rewrite Qeq_alt.
  destruct (Qcompare a b); split; congruence.
Qed.

Lemma Qfloor_unique q z :
  inject_Z z <= q -> q < inject_Z (z + 1) -> Qfloor q = z.
Proof.
  intros Hlo Hhi.
  pose proof (Qfloor_le q) as Hf. pose proof (Qlt_floor q) as Hf'.
  assert (z < Qfloor q + 1)%Z
    by (rewrite Zlt_Qlt; eapply Qle_lt_trans; eassumption).
  assert (Qfloor q < z + 1)%Z
    by (rewrite Zlt_Qlt; eapply Qle_lt_trans; eassumption).
  lia.
Qed.

Lemma Qceiling_unique q z :
  inject_Z (z - 1) < q -> q <= inject_Z z -> Qceiling q = z.
Proof.
  intros Hlo Hhi.
  pose proof (Qle_ceiling q) as Hc. pose proof (Qceiling_lt q) as Hc'.
  assert (z - 1 < Qceiling q)%Z
    by (rewrite Zlt_Qlt; eapply Qlt_le_trans; eassumption).
  assert (Qceiling q - 1 < z)%Z
    by (rewrite Zlt_Qlt; eapply Qlt_le_trans; eassumption).
  lia.
Qed.

Lemma py_round_comp q q' : q == q' -> py_round q = py_round q'.
Proof.
  intros E. unfold py_round.
  rewrite (Qfloor_comp _ _ E).
  assert (E' : q - inject_Z (Qfloor q') == q' - inject_Z (Qfloor q'))
    by (rewrite E; reflexivity).
  rewrite (Qcompare_comp _ _ E' _ _ (Qeq_refl (1 # 2))). reflexivity.
Qed.

(** [round] returns one of the two neighbouring integers. *)
Lemma py_round_floor_or_next q :
  py_round q = Qfloor q \/ py_round q = (Qfloor q + 1)%Z.
Proof.
  unfold py_round.
  destruct (Qcompare (q - inject_Z (Qfloor q)) (1 # 2));
    [destruct (Z.even (Qfloor q))| |]; auto.
Qed.

(** A tie goes to the even neighbour. *)
Lemma py_round_tie q n :
  q == inject_Z n + (1 # 2) ->
  py_round q = if Z.even n then n else (n + 1)%Z.
Proof.
  intros E.
  assert (Hf : Qfloor q = n).
  { apply Qfloor_unique; rewrite ?inject_Z_plus; rewrite E;
      change (inject_Z 1) with 1; lra. }
  unfold py_round. rewrite Hf.
  assert (Hc : Qcompare (q - inject_Z n) (1 # 2) = Eq)
    by (rewrite <- Qeq_alt, E; ring).
  rewrite Hc. reflexivity.
Qed.

End NumFacts.

(* ------------------------------------------------------------------ *)
(** ** Grid / frame builder *)

Section GridLinesFacts.
Import Num GridLines.

(** The rounded value is the base times the integer below the quotient or
    the one above it. *)
Lemma round2int_floor_or_next x base :
  round2int x base = base * inject_Z (Qfloor (x / base)) \/
  round2int x base = base * inject_Z (Qfloor (x / base) + 1).
Proof.
  unfold round2int.
  destruct (py_round_floor_or_next (x / base)) as [-> | ->]; auto.
Qed.

(** After the three-way comparison the last tick is the interval times the
    integer part of the quotient, whichever way [round] went. *)
Lemma newDistTickMax_floor bound xInt :
  0 < xInt ->
  newDistTickMax (round2int bound xInt) bound xInt
  == xInt * inject_Z (Qfloor (bound / xInt)).
Proof.
  intros Hpos.
  assert (Hq : xInt * (bound / xInt) == bound)
    by (apply Qmult_div_r; lra).
  pose proof (Qfloor_le (bound / xInt)) as Hlo.
  pose proof (Qlt_floor (bound / xInt)) as Hhi.
  rewrite inject_Z_plus in Hhi. change (inject_Z 1) with 1 in Hhi.
  set (f := inject_Z (Qfloor (bound / xInt))) in *.
  assert (Hlo' : xInt * f <= bound)
    by (rewrite <- Hq; apply Qmult_le_l; assumption).
  assert (Hhi' : bound < xInt * (f + 1))
    by (rewrite <- Hq at 1; apply Qmult_lt_l; assumption).
  unfold newDistTickMax.
  destruct (round2int_floor_or_next bound xInt) as [-> | ->]; fold f.
  - destruct (Qcompare (xInt * f) bound) eqn:E; try reflexivity.
    apply Qgt_alt in E. lra.
  - rewrite inject_Z_plus. change (inject_Z 1) with 1. fold f.
    destruct (Qcompare (xInt * (f + 1)) bound) eqn:E.
    + apply Qeq_alt in E. lra.
    + apply Qlt_alt in E. lra.
    + ring.
Qed.

Lemma round2int_0 xInt : round2int 0 xInt == 0.
Proof.
  unfold round2int.
  assert (E : 0 / xInt == 0) by (unfold Qdiv; ring).
  rewrite (py_round_comp _ _ E). change (py_round 0) with 0%Z. ring.
Qed.

Lemma last_map_seq {A} (f : nat -> A) (m : nat) (d : A) :
  last (map f (seq 0 (S m))) d = f m.
Proof.
  rewrite seq_S, map_app. simpl. apply last_last.
Qed.

(** Number of values of [arange] when the span is a whole number of steps
    plus one, the step being at least one. *)
Lemma np_arange_count start k step :
  (0 <= k)%Z -> 1 <= step -> start == 0 ->
  Qceiling ((step * inject_Z k + 1 - start) / step) = (k + 1)%Z.
Proof.
  intros Hk Hstep Hstart.
  assert (Hinv : 0 < / step <= 1).
  { split.
    - apply Qinv_lt_0_compat. lra.
    - apply Qle_shift_inv_r; lra. }
  assert (E : (step * inject_Z k + 1 - start) / step == inject_Z k + / step)
    by (rewrite Hstart; field; lra).
  rewrite E. apply Qceiling_unique.
  - replace (k + 1 - 1)%Z with k by lia. lra.
  - rewrite inject_Z_plus. change (inject_Z 1) with 1. lra.
Qed.

Lemma distList_meters_eq Xmax xInt :
  distList "Meters" 0 Xmax xInt = Some (distList_meters Xmax xInt).
Proof. reflexivity. Qed.

(** Shape of the tick list of the [Meters] branch: [k + 1] values, [k] the
    integer part of [Xmax / xInt]. *)
Lemma distList_meters_shape Xmax xInt :
  0 <= Xmax -> 1 <= xInt ->
  distList_meters Xmax xInt =
  map (fun i => round2int 0 xInt + inject_Z (Z.of_nat i) * xInt)
      (seq 0 (S (Z.to_nat (Qfloor (Xmax / xInt))))).
Proof.
  intros HX Hx.
  assert (Hk : (0 <= Qfloor (Xmax / xInt))%Z).
  { change 0%Z with (Qfloor 0). apply Qfloor_resp_le.
    apply Qle_shift_div_l; lra. }
  unfold distList_meters, np_arange.
  rewrite (newDistTickMax_floor Xmax xInt) by lra.
  rewrite np_arange_count by (auto using round2int_0).
  rewrite Z2Nat.inj_add by lia. change (Z.to_nat 1) with 1%nat.
  rewrite Nat.add_1_r. reflexivity.
Qed.

(** C6 (as amended).  [round2int x base] is [base * round(x / base)] with
    Python's [round]: when [x / base] lies exactly halfway between the
    integers [n] and [n + 1], the result is [base] times the even one of the
    two, so 25 and -25 both go to 0 for base 50 and 75 goes to 100. *)
Theorem round2int_tie_to_even x base n :
  x / base == inject_Z n + (1 # 2) ->
  round2int x base = base * inject_Z (py_round (x / base)) /\
  round2int x base == base * inject_Z (if Z.even n then n else (n + 1)%Z).
Proof.
  intros E. split; [reflexivity|].
  unfold round2int. rewrite (py_round_tie _ _ E). reflexivity.
Qed.

Lemma round2int_tie_to_even_witness :
  75 / 50 == inject_Z 1 + (1 # 2) /\
  round2int 75 50 == 50 * inject_Z 2.
Proof.
  split; [reflexivity|].
  apply (round2int_tie_to_even 75 50 1%Z). reflexivity.
Defined.

(** C6, the claim as stated, fails: 25 / 50 and -25 / 50 are exact ties,
    and the results are 0, not 50 and -50. *)
Lemma round2int_not_half_away :
  25 / 50 == inject_Z 0 + (1 # 2) /\
  round2int 25 50 == 0 /\ ~ round2int 25 50 == 50 /\
  -25 / 50 == inject_Z (-1) + (1 # 2) /\
  round2int (-25) 50 == 0 /\
  ~ round2int (-25) 50 == -50.
Proof.
  repeat split; try reflexivity; intros H; vm_compute in H; discriminate.
Qed.

(** C4 (as amended).  Distance ticks round inward: for [Xmax = 1234] and an
    interval of 500 meters the ticks are 0, 500, 1000; for every
    [Xmax >= 0] and every interval of at least one meter the list is not
    empty and neither its last tick nor any other exceeds [Xmax]. *)
Theorem distList_rounds_inward :
  (exists ticks, distList "Meters" 0 1234 500 = Some ticks /\
     Forall2 Qeq ticks [0; 500; 1000]) /\
  forall Xmax xInt, 0 <= Xmax -> 1 <= xInt ->
    exists ticks, distList "Meters" 0 Xmax xInt = Some ticks /\
      ticks <> [] /\
      last ticks 0 <= Xmax /\
      Forall (fun t => t <= Xmax) ticks.
Proof.
  split.
  { eexists. split; [reflexivity|].
    vm_compute. repeat constructor. }
  intros Xmax xInt HX Hx.
  exists (distList_meters Xmax xInt). split; [reflexivity|].
  assert (Hk : (0 <= Qfloor (Xmax / xInt))%Z).
  { change 0%Z with (Qfloor 0). apply Qfloor_resp_le.
    apply Qle_shift_div_l; lra. }
  assert (Hq : xInt * (Xmax / xInt) == Xmax) by (apply Qmult_div_r; lra).
  pose proof (Qfloor_le (Xmax / xInt)) as Hlo.
  assert (Hlo' : xInt * inject_Z (Qfloor (Xmax / xInt)) <= Xmax)
    by (rewrite <- Hq at 2; apply Qmult_le_l; [lra | assumption]).
  pose proof (round2int_0 xInt) as H0.
  rewrite distList_meters_shape by assumption.
  assert (Hlast :
    last (map (fun i => round2int 0 xInt + inject_Z (Z.of_nat i) * xInt)
              (seq 0 (S (Z.to_nat (Qfloor (Xmax / xInt)))))) 0
    == xInt * inject_Z (Qfloor (Xmax / xInt))).
  { rewrite last_map_seq, Z2Nat.id by assumption. rewrite H0. ring. }
  repeat split.
  - rewrite seq_S, map_app. intros H. symmetry in H.
    apply app_cons_not_nil in H. exact H.
  - rewrite Hlast. exact Hlo'.
  - apply Forall_forall. intros t Ht.
    apply in_map_iff in Ht. destruct Ht as (i & <- & Hi).
    apply in_seq in Hi.
    assert (Hi' : inject_Z (Z.of_nat i) <= inject_Z (Qfloor (Xmax / xInt)))
      by (rewrite <- Zle_Qle; lia).
    assert (inject_Z (Z.of_nat i) * xInt
            <= inject_Z (Qfloor (Xmax / xInt)) * xInt)
      by (apply Qmult_le_compat_r; lra).
    rewrite H0. lra.
Qed.

Lemma distList_rounds_inward_witness :
  0 <= 1300 /\ 1 <= 500 /\
  exists ticks, distList "Meters" 0 1300 500 = Some ticks /\
    ticks <> [] /\
    last ticks 0 <= 1300 /\
    Forall (fun t => t <= 1300) ticks.
Proof.
  assert (H1 : 0 <= 1300) by (vm_compute; discriminate).
  assert (H2 : 1 <= 500) by (vm_compute; discriminate).
  split; [exact H1|]. split; [exact H2|].
  exact (proj2 distList_rounds_inward 1300 500 H1 H2).
Defined.

(** C4, the claim as stated, fails at its own example: for [Xmax = 1234]
    and an interval of 500 meters the list is not 0, 500, 1000, 1500, and
    its last tick, 1000, is below [Xmax]. *)
Lemma distList_not_outward :
  exists ticks, distList "Meters" 0 1234 500 = Some ticks /\
    ~ Forall2 Qeq ticks [0; 500; 1000; 1500] /\
    ~ 1234 <= last ticks 0.
Proof.
  eexists. split; [reflexivity|]. split.
  - intros H. apply Forall2_length in H. vm_compute in H. discriminate.
  - intros H. vm_compute in H. apply H. reflexivity.
Qed.

End GridLinesFacts.

(* ------------------------------------------------------------------ *)
(** ** Borehole projector *)

Section BoreholesFacts.
Import Num Boreholes.

Local Open Scope string_scope.

Lemma boreholes_step_Some elevUnits f ve id_pref insertRow i out msgs row :
  unit_factor elevUnits = Some f ->
  boreholes_step elevUnits ve id_pref insertRow (i, out, msgs) row =
  let vals := make_stick f ve id_pref (S i) row in
  if insertRow vals
  then (S i, (out ++ [vals])%list, msgs)
  else (S i, out, (msgs ++ [CouldNotCreateFeature (OBJECTID row)])%list).
Proof.
  unfold unit_factor, boreholes_step.
  destruct (String.eqb elevUnits "Meters") eqn:EM.
  - apply String.eqb_eq in EM. subst elevUnits. simpl.
    intros [= <-]. destruct (insertRow _); reflexivity.
  - destruct (String.eqb elevUnits "Feet") eqn:EF; [|discriminate].
    intros [= <-]. reflexivity.
Qed.

Lemma boreholes_step_None elevUnits ve id_pref insertRow st row :
  unit_factor elevUnits = None ->
  boreholes_step elevUnits ve id_pref insertRow st row = st.
Proof.
  unfold unit_factor, boreholes_step. destruct st as [[i out] msgs].
  destruct (String.eqb elevUnits "Meters"); [discriminate|].
  destruct (String.eqb elevUnits "Feet"); [discriminate|]. reflexivity.
Qed.

(** Every stick the loop has written comes from a row it has read, through
    the branch the unit name selects. *)
Lemma boreholes_fold_inv elevUnits ve id_pref insertRow all rows :
  forall st,
    incl rows all ->
    Forall (made_from elevUnits ve id_pref all) (snd (fst st)) ->
    Forall (made_from elevUnits ve id_pref all)
           (snd (fst (fold_left (boreholes_step elevUnits ve id_pref insertRow)
                                rows st))).
Proof.
  induction rows as [|row rows IH]; intros st Hincl Hst; simpl; [exact Hst|].
  apply IH; [intros x Hx; apply Hincl; right; exact Hx|].
  destruct (unit_factor elevUnits) as [f|] eqn:Ef.
  - destruct st as [[i out] msgs].
    rewrite (boreholes_step_Some _ f) by assumption. simpl in *.
    destruct (insertRow _); simpl; [|exact Hst].
    apply Forall_app. split; [exact Hst|].
    constructor; [|constructor].
    exists f, (S i). simpl. repeat split; [exact Ef|].
    apply Hincl. left. reflexivity.
  - rewrite boreholes_step_None by assumption. exact Hst.
Qed.

Lemma boreholes_made_from elevUnits ve id_pref insertRow rows s :
  In s (boreholes elevUnits ve id_pref insertRow rows) ->
  made_from elevUnits ve id_pref rows s.
Proof.
  intros Hin.
  pose proof (boreholes_fold_inv elevUnits ve id_pref insertRow rows rows
                (O, [], []) (incl_refl _) (Forall_nil _)) as H.
  rewrite Forall_forall in H. apply H. exact Hin.
Qed.

Lemma unit_factor_cases elevUnits f :
  unit_factor elevUnits = Some f ->
  (elevUnits = "Meters" /\ f = 1) \/ (elevUnits = "Feet" /\ f = c0_3048).
Proof.
  unfold unit_factor.
  destruct (String.eqb elevUnits "Meters") eqn:EM.
  - apply String.eqb_eq in EM. intros [= <-]. auto.
  - destruct (String.eqb elevUnits "Feet") eqn:EF; [|discriminate].
    apply String.eqb_eq in EF. intros [= <-]. auto.
Qed.

(** C3 (as amended).  A stick's first vertex is at the surface elevation
    and its second at surface elevation minus depth, both multiplied by the
    vertical exaggeration, and in the [Feet] branch by 0.3048 before that;
    nothing is converted in the [Meters] branch.  With [Feet], elevation
    500, depth 100 and exaggeration 1 the stick runs from 152.4 down to
    121.92. *)
Theorem boreholes_top_bottom :
  (exists s, boreholes "Feet" 1 "L" (fun _ => true) [example_row] = [s] /\
             top s == 1524 # 10 /\ bottom s == 12192 # 100) /\
  (forall ve id_pref insertRow rows s,
     In s (boreholes "Meters" ve id_pref insertRow rows) ->
     In (attrs s) rows /\
     top s == zDEM (attrs s) * ve /\
     bottom s == (zDEM (attrs s) - BOREH_DEPTH (attrs s)) * ve) /\
  (forall ve id_pref insertRow rows s,
     In s (boreholes "Feet" ve id_pref insertRow rows) ->
     In (attrs s) rows /\
     top s == zDEM (attrs s) * c0_3048 * ve /\
     bottom s ==
       (zDEM (attrs s) * c0_3048 - BOREH_DEPTH (attrs s) * c0_3048) * ve).
Proof.
  split; [|split].
  - eexists. split; [reflexivity|]. split; reflexivity.
  - intros ve id_pref insertRow rows s Hin.
    apply boreholes_made_from in Hin.
    destruct Hin as (f & i & Hf & Hrow & Hs).
    apply unit_factor_cases in Hf. destruct Hf as [[_ ->] | [[=] _]].
    split; [exact Hrow|]. rewrite Hs. unfold top, bottom. simpl.
    split; ring.
  - intros ve id_pref insertRow rows s Hin.
    apply boreholes_made_from in Hin.
    destruct Hin as (f & i & Hf & Hrow & Hs).
    apply unit_factor_cases in Hf. destruct Hf as [[[=] _] | [_ ->]].
    split; [exact Hrow|]. rewrite Hs. unfold top, bottom. simpl.
    split; ring.
Qed.

Lemma boreholes_top_bottom_witness :
  let s := make_stick 1 2 "L" 1 example_row in
  In s (boreholes "Meters" 2 "L" (fun _ => true) [example_row]) /\
  top s == 1000 /\ bottom s == 800.
Proof.
  assert (Hin : In (make_stick 1 2 "L" 1 example_row)
                   (boreholes "Meters" 2 "L" (fun _ => true) [example_row]))
    by (left; reflexivity).
  split; [exact Hin|].
  destruct (proj1 (proj2 boreholes_top_bottom) 2 "L" (fun _ => true)
              [example_row] _ Hin) as (_ & Ht & Hb).
  split.
  - rewrite Ht. reflexivity.
  - rewrite Hb. reflexivity.
Defined.

(** C3, the claim as stated, fails at its own example: with [Feet],
    elevation 500, depth 100 and exaggeration 1 the stick does not run from
    500 to 400. *)
Lemma boreholes_feet_not_500_400 :
  exists s, boreholes "Feet" 1 "L" (fun _ => true) [example_row] = [s] /\
            ~ top s == 500 /\ ~ bottom s == 400.
Proof.
  eexists. split; [reflexivity|].
  split; intros H; vm_compute in H; discriminate.
Qed.

(** C8.  With a non-negative depth and a positive vertical exaggeration a
    stick's first vertex is not below its second, in the [Meters] branch and
    in the [Feet] branch. *)
Theorem boreholes_top_ge_bottom elevUnits ve id_pref insertRow rows s :
  elevUnits = "Meters" \/ elevUnits = "Feet" ->
  0 < ve ->
  In s (boreholes elevUnits ve id_pref insertRow rows) ->
  0 <= BOREH_DEPTH (attrs s) ->
  bottom s <= top s.
Proof.
  intros _ Hve Hin Hd.
  apply boreholes_made_from in Hin.
  destruct Hin as (f & i & Hf & _ & Hs).
  assert (Hf0 : 0 <= f).
  { apply unit_factor_cases in Hf.
    destruct Hf as [[_ ->] | [_ ->]]; vm_compute; discriminate. }
  rewrite Hs. unfold top, bottom. simpl.
  apply Qmult_le_compat_r; [|lra].
  pose proof (Qmult_le_0_compat _ _ Hd Hf0). lra.
Qed.

Lemma boreholes_top_ge_bottom_witness :
  (let s := make_stick 1 2 "L" 1 example_row in
   In s (boreholes "Meters" 2 "L" (fun _ => true) [example_row]) /\
   bottom s <= top s) /\
  (let s := make_stick c0_3048 2 "L" 1 example_row in
   In s (boreholes "Feet" 2 "L" (fun _ => true) [example_row]) /\
   bottom s <= top s).
Proof.
  assert (Hve : 0 < 2) by reflexivity.
  assert (Hd : 0 <= BOREH_DEPTH example_row) by (vm_compute; discriminate).
  split.
  - assert (Hin : In (make_stick 1 2 "L" 1 example_row)
                     (boreholes "Meters" 2 "L" (fun _ => true) [example_row]))
      by (left; reflexivity).
    split; [exact Hin|].
    exact (boreholes_top_ge_bottom "Meters" 2 "L" (fun _ => true)
             [example_row] _ (or_introl eq_refl) Hve Hin Hd).
  - assert (Hin : In (make_stick c0_3048 2 "L" 1 example_row)
                     (boreholes "Feet" 2 "L" (fun _ => true) [example_row]))
      by (left; reflexivity).
    split; [exact Hin|].
    exact (boreholes_top_ge_bottom "Feet" 2 "L" (fun _ => true)
             [example_row] _ (or_intror eq_refl) Hve Hin Hd).
Defined.

Lemma cartesianToGeographic_Some angle :
  -90 - angle < 0 ->
  cartesianToGeographic angle = Some (-90 - angle + 360).
Proof.
  intros H. unfold cartesianToGeographic.
  apply Qltb_true in H. rewrite H. reflexivity.
Qed.

Lemma cartesianToGeographic_None angle :
  0 <= -90 - angle -> cartesianToGeographic angle = None.
Proof.
  intros H. unfold cartesianToGeographic.
  apply Qltb_false in H. rewrite H. reflexivity.
Qed.

(** C10 (as amended).  [cartesianToGeographic angle] returns a number
    exactly when [-90 - angle < 0], that is when [angle > -90]; the number is
    [-90 - angle + 360], which does not exceed 360 and is non-negative
    exactly when [angle <= 270]; for [angle <= -90] it returns [None]; and
    what it returns is what the loop stores in the stick's
    [LocalXSEC_Azimuth].  (The bound 360 is not strict: in binary64 the sum
    is rounded and 360 is reached, see
    [cartesianToGeographic_reaches_360].) *)
Theorem cartesianToGeographic_spec angle :
  ((exists v, cartesianToGeographic angle = Some v) <-> -90 - angle < 0) /\
  (-90 - angle < 0 <-> -90 < angle) /\
  (forall v, cartesianToGeographic angle = Some v ->
     v = -90 - angle + 360 /\ v <= 360 /\ (0 <= v <-> angle <= 270)) /\
  (angle <= -90 <-> cartesianToGeographic angle = None) /\
  (forall elevUnits ve id_pref insertRow rows s,
     In s (boreholes elevUnits ve id_pref insertRow rows) ->
     LOC_ANGLE (attrs s) = angle ->
     LocalXSEC_Azimuth s = cartesianToGeographic angle).
Proof.
  assert (Hstored : forall elevUnits ve id_pref insertRow rows s,
     In s (boreholes elevUnits ve id_pref insertRow rows) ->
     LOC_ANGLE (attrs s) = angle ->
     LocalXSEC_Azimuth s = cartesianToGeographic angle).
  { intros elevUnits ve id_pref insertRow rows s Hin <-.
    apply boreholes_made_from in Hin.
    destruct Hin as (f & i & _ & _ & ->). reflexivity. }
  destruct (Qlt_le_dec (-90 - angle) 0) as [Hlt | Hge].
  - rewrite (cartesianToGeographic_Some _ Hlt) in *.
    split; [split; [auto | eauto]|].
    split; [split; intros; lra|].
    split; [intros v [= <-]; repeat split; intros; lra|].
    split; [split; [intros; lra | discriminate]|].
    exact Hstored.
  - rewrite (cartesianToGeographic_None _ Hge) in *.
    split; [split; [intros [v [=]] | intros; lra]|].
    split; [split; intros; lra|].
    split; [intros v [=]|].
    split; [split; [reflexivity | intros; lra]|].
    exact Hstored.
Qed.

Lemma cartesianToGeographic_spec_witness :
  let row := {| OBJECTID := 1; WELLID := "W1"; geom_M := 500; zDEM := 500;
                BOREH_DEPTH := 100; LOC_ANGLE := -100; Distance := 12 |} in
  let s := make_stick 1 1 "L" 1 row in
  In s (boreholes "Meters" 1 "L" (fun _ => true) [row]) /\
  -100 <= -90 /\
  cartesianToGeographic (-100) = None /\
  LocalXSEC_Azimuth s = cartesianToGeographic (-100).
Proof.
  intros row s.
  assert (Hin : In s (boreholes "Meters" 1 "L" (fun _ => true) [row]))
    by (left; reflexivity).
  assert (Hle : -100 <= -90) by (vm_compute; discriminate).
  destruct (cartesianToGeographic_spec (-100))
    as (_ & _ & _ & [Hnone _] & Hstored).
  split; [exact Hin|]. split; [exact Hle|].
  split; [exact (Hnone Hle)|].
  exact (Hstored "Meters" 1 "L" (fun _ => true) [row] s Hin eq_refl).
Defined.

(** C10, the claim as stated, fails on the range: 300 is above -90, and the
    value returned for it, -30, is not in [0, 360). *)
Lemma cartesianToGeographic_300 :
  -90 < 300 /\
  exists v, cartesianToGeographic 300 = Some v /\ v == -30 /\ ~ 0 <= v.
Proof.
  split; [reflexivity|].
  eexists. split; [reflexivity|]. split; [reflexivity|].
  intros H. vm_compute in H. apply H. reflexivity.
Qed.

(** *** Duplicate removal *)

Lemma AddField_xDupDetect_null pts :
  Forall (fun p => xDupDetect p = None) (AddField_xDupDetect pts).
Proof.
  unfold AddField_xDupDetect. apply Forall_forall.
  intros p Hp. apply in_map_iff in Hp. destruct Hp as (q & <- & _).
  reflexivity.
Qed.

Lemma LocateFeaturesAlongRoutes_null locate pts :
  Forall (fun p => xDupDetect p = None) pts ->
  Forall (fun r => xDupDetect (ev_point r) = None)
         (LocateFeaturesAlongRoutes locate pts).
Proof.
  intros H. unfold LocateFeaturesAlongRoutes. apply Forall_forall.
  intros r Hr. apply in_flat_map in Hr. destruct Hr as (p & Hp & Hr).
  apply in_map_iff in Hr. destruct Hr as (md & <- & _). simpl.
  rewrite Forall_forall in H. auto.
Qed.

(** Once a null has been seen, every row whose field is null goes, when two
    nulls are identical. *)
Lemma DeleteIdentical_null_seen rows seen :
  In None seen ->
  Forall (fun r => xDupDetect (ev_point r) = None) rows ->
  DeleteIdentical true seen rows = [].
Proof.
  intros Hseen. induction 1 as [|r rows Hr _ IH]; simpl; [reflexivity|].
  rewrite Hr.
  assert (E : existsb (identical true None) seen = true)
    by (apply existsb_exists; exists None; auto).
  rewrite E. exact IH.
Qed.

(** The field is never calculated, so when the tool takes two nulls for
    identical values and the removal runs, one row is all that is left,
    however many boreholes were located. *)
Lemma locateEvents_Table_one_row locate pts :
  (List.length pts
   < List.length (LocateFeaturesAlongRoutes locate (AddField_xDupDetect pts)))%nat ->
  List.length (locateEvents_Table true locate pts false) = 1%nat.
Proof.
  intros Hlt. unfold locateEvents_Table.
  assert (Hn : List.length (AddField_xDupDetect pts) = List.length pts)
    by (unfold AddField_xDupDetect; apply length_map).
  rewrite Hn. apply Nat.ltb_lt in Hlt. rewrite Hlt. simpl.
  pose proof (LocateFeaturesAlongRoutes_null locate _
                (AddField_xDupDetect_null pts)) as Hnull.
  apply Nat.ltb_lt in Hlt.
  destruct (LocateFeaturesAlongRoutes locate (AddField_xDupDetect pts))
    as [|r rows]; [simpl in Hlt; lia|].
  inversion Hnull as [|? ? Hr Hrows]; subst. simpl. rewrite Hr.
  rewrite DeleteIdentical_null_seen by (simpl; auto). reflexivity.
Qed.

(** C2, evaluated.  Two boreholes, the first located twice: three rows for
    two points, so the removal runs.  If the tool takes two nulls for
    identical, one row survives and the second borehole is lost; if it does
    not, all three rows survive.  In neither case does one row per borehole
    survive. *)
Theorem locateEvents_Table_two_boreholes :
  map le_OID (locateEvents_Table true first_located_twice two_boreholes false)
    = [1%Z] /\
  map le_OID (locateEvents_Table false first_located_twice two_boreholes false)
    = [1%Z; 1%Z; 2%Z] /\
  forall nulls_identical,
    map le_OID (locateEvents_Table nulls_identical first_located_twice
                  two_boreholes false) <> [1%Z; 2%Z].
Proof.
  split; [reflexivity|]. split; [reflexivity|].
  intros [|]; vm_compute; discriminate.
Qed.

End BoreholesFacts.

(* ------------------------------------------------------------------ *)
(** ** Path builder *)

Section PathBuilderFacts.
Import PathBuilder.

Local Open Scope string_scope.

Lemma update_QUAD_unrecognized d q :
  recognized d = false -> update_QUAD (d, q) = (d, q).
Proof.
  unfold recognized, direction_codes, update_QUAD. simpl.
  intros H. repeat (apply orb_false_elim in H; destruct H as [-> H]).
  reflexivity.
Qed.

Lemma update_QUAD_recognized d q :
  recognized d = true -> exists quad, snd (update_QUAD (d, q)) = Some quad.
Proof.
  unfold recognized, direction_codes, update_QUAD. simpl.
  destruct (field_is d "W-E"), (field_is d "NW-SE"), (field_is d "E-W"),
    (field_is d "SW-NE"), (field_is d "S-N"), (field_is d "N-S"),
    (field_is d "NE-SW"), (field_is d "SE-NW");
    simpl; intros; eauto; discriminate.
Qed.

Lemma insert_row_Forall (P : QuadRow -> Prop) nulls_first r l :
  P r -> Forall P l -> Forall P (insert_row nulls_first r l).
Proof.
  intros Hr. induction 1 as [|x l Hx Hl IH]; simpl.
  - auto.
  - destruct (quad_before nulls_first (snd r) (snd x)); auto.
Qed.

Lemma sort_QUAD_desc_Forall (P : QuadRow -> Prop) nulls_first l :
  Forall P l -> Forall P (sort_QUAD_desc nulls_first l).
Proof.
  unfold sort_QUAD_desc. induction 1; simpl.
  - constructor.
  - apply insert_row_Forall; assumption.
Qed.

Lemma insert_row_not_nil nulls_first r l : insert_row nulls_first r l <> [].
Proof.
  destruct l; simpl; [discriminate|].
  destruct (quad_before _ _ _); discriminate.
Qed.

(** The rows of [z_line] after the cursor, when no direction is known. *)
Lemma z_line_unset directions :
  Forall (fun d => recognized d = false) directions ->
  Forall (fun row : QuadRow => snd row = None)
         (map update_QUAD (map (fun d => (d, @None string)) directions)).
Proof.
  induction 1 as [|d l Hd _ IH]; simpl; constructor; [|exact IH].
  rewrite update_QUAD_unrecognized by assumption. reflexivity.
Qed.

(** The first row of the sorted table is one of its rows. *)
Lemma hd_sort_QUAD_desc (P : QuadRow -> Prop) nulls_first first others :
  Forall P (first :: others) ->
  P (hd first (sort_QUAD_desc nulls_first (first :: others))).
Proof.
  intros H. apply (sort_QUAD_desc_Forall P nulls_first) in H.
  destruct (sort_QUAD_desc nulls_first (first :: others)) as [|row rows] eqn:E.
  - exfalso. simpl in E. exact (insert_row_not_nil _ _ _ E).
  - inversion H; subst. assumption.
Qed.

(** C7 (as amended).  None of the line's directions is one of the eight
    codes.  When the line does not already carry Z and M, the cursor
    leaves [QUAD] null in every row, the block raises before
    [CreateRoutes] is reached ([KeyError] from [getCPValue]; [NameError]
    from [del row] if the table has no row), and the handler reports the
    line and raises [SystemError].  When the line carries Z and M, the
    block assigns no quadrant, raises nothing and uses the line as it
    is. *)
Theorem unrecognized_direction_raises
    nulls_first hasZ hasM directions Value :
  Forall (fun d => recognized d = false) directions ->
  (hasZ && hasM = false ->
     Forall (fun row : QuadRow => snd row = None)
            (map update_QUAD (map (fun d => (d, @None string)) directions)) /\
     build_path nulls_first hasZ hasM directions
       = inl (match directions with [] => NameError | _ => KeyError end) /\
     (forall cp, build_path nulls_first hasZ hasM directions
                 <> inr (CreateRoutes cp)) /\
     path_block nulls_first hasZ hasM directions Value
       = (["ERROR 002: Failed to create the elevation route polyline for "
             ++ Value], inl SystemError)) /\
  (hasZ && hasM = true ->
     build_path nulls_first hasZ hasM directions = inr Reused /\
     path_block nulls_first hasZ hasM directions Value = ([], inr Reused)).
Proof.
  intros Hdir. split.
  - intros HZM.
    pose proof (z_line_unset directions Hdir) as Hunset.
    assert (Hb : build_path nulls_first hasZ hasM directions
      = inl (match directions with [] => NameError | _ => KeyError end)).
    { unfold build_path. rewrite HZM.
      destruct directions as [|d rest]; [reflexivity|].
      simpl map in *.
      pose proof (hd_sort_QUAD_desc _ nulls_first _ _ Hunset) as Hrow.
      cbv beta in Hrow. cbv iota zeta. rewrite Hrow. reflexivity. }
    split; [exact Hunset|]. split; [exact Hb|]. split.
    + intros cp. rewrite Hb. discriminate.
    + unfold path_block. rewrite Hb. reflexivity.
  - intros HZM. unfold path_block, build_path. rewrite HZM. split; reflexivity.
Qed.

Lemma unrecognized_direction_raises_witness :
  recognized (Some "NORTH") = false /\
  build_path true false false [Some "NORTH"] = inl KeyError /\
  path_block true false false [Some "NORTH"] "A"
    = (["ERROR 002: Failed to create the elevation route polyline for A"],
       inl SystemError).
Proof.
  assert (Hdir : Forall (fun d => recognized d = false) [Some "NORTH"])
    by (constructor; [reflexivity | constructor]).
  destruct (proj1 (unrecognized_direction_raises true false false
                     [Some "NORTH"] "A" Hdir) eq_refl)
    as (_ & Hb & _ & Hp).
  split; [reflexivity|]. split; [exact Hb | exact Hp].
Defined.

(** C7, the claim as stated, fails for a line that already carries Z and
    M: its direction is none of the eight codes, and the block raises
    nothing, logs nothing and goes on with the line as its path. *)
Lemma unrecognized_direction_with_Z_and_M :
  recognized (Some "NORTH") = false /\
  build_path true true true [Some "NORTH"] = inr Reused /\
  path_block true true true [Some "NORTH"] "A" = ([], inr Reused) /\
  (forall e, build_path true true true [Some "NORTH"] <> inl e).
Proof.
  repeat split. intros e. discriminate.
Qed.

(** A known direction does reach [CreateRoutes], from the corner its
    quadrant selects. *)
Example build_path_known_directions :
  build_path true false false [Some "W-E"] = inr (CreateRoutes "UPPER_LEFT") /\
  build_path true false false [Some "N-S"] = inr (CreateRoutes "LOWER_LEFT") /\
  build_path true false false [Some "NE-SW"] = inr (CreateRoutes "UPPER_RIGHT") /\
  build_path true false false [Some "SE-NW"] = inr (CreateRoutes "LOWER_RIGHT").
Proof. repeat split. Qed.

End PathBuilderFacts.

(* ------------------------------------------------------------------ *)
(** ** The loop over the traverse lines *)

Section DriverFacts.
Import Driver.

Local Open Scope string_scope.

Lemma run_blocks_pass blocks Value :
  Forall (fun b => raises b Value = false) blocks ->
  run_blocks blocks Value = ([], None).
Proof.
  induction 1 as [|b blocks Hb _ IH]; simpl; [reflexivity|].
  rewrite Hb. exact IH.
Qed.

Lemma run_blocks_fail before b after Value :
  Forall (fun b' => raises b' Value = false) before ->
  raises b Value = true ->
  run_blocks (before ++ b :: after) Value
    = ([error_message b Value], Some SystemError).
Proof.
  induction 1 as [|b' before Hb' _ IH]; simpl; intros Hb.
  - rewrite Hb. reflexivity.
  - rewrite Hb'. auto.
Qed.

Lemma run_lines_pass blocks pre rest :
  Forall (fun u => Forall (fun b => raises b u = false) blocks) pre ->
  run_lines blocks (pre ++ rest)
    = ((map analyzing pre ++ fst (run_lines blocks rest))%list,
       snd (run_lines blocks rest)).
Proof.
  induction 1 as [|u pre Hu _ IH]; simpl.
  - destruct (run_lines blocks rest); reflexivity.
  - rewrite (run_blocks_pass _ _ Hu), IH. reflexivity.
Qed.

(** The run over lines that pass, then a line for which a block raises. *)
Lemma run_lines_fail before b after pre v post :
  Forall (fun u => Forall (fun b' => raises b' u = false)
                          (before ++ b :: after)%list) pre ->
  Forall (fun b' => raises b' v = false) before ->
  raises b v = true ->
  run_lines (before ++ b :: after)%list (pre ++ v :: post)%list
    = ((map analyzing pre ++ [analyzing v; error_message b v])%list,
       Some SystemError).
Proof.
  intros Hpre Hbefore Hb.
  rewrite (run_lines_pass _ _ _ Hpre). simpl.
  rewrite (run_blocks_fail _ _ _ _ Hbefore Hb). reflexivity.
Qed.

Lemma boreholes_script_pass fails scratchDir_basename pre :
  Forall (fun u => forall s, fails u s = false) pre ->
  Forall (fun u => Forall (fun b' => raises b' u = false)
                          (boreholes_script fails scratchDir_basename)) pre.
Proof.
  intros H. eapply Forall_impl; [|exact H].
  intros u Hu. repeat constructor; apply Hu.
Qed.

Lemma bedrock_script_pass fails bdrkDEM_basename scratchDir_basename pre :
  Forall (fun u => forall s, fails u s = false) pre ->
  Forall (fun u => Forall (fun b' => raises b' u = false)
            (bedrock_script fails bdrkDEM_basename scratchDir_basename)) pre.
Proof.
  intros H. eapply Forall_impl; [|exact H].
  intros u Hu. repeat constructor; apply Hu.
Qed.

(** C1 (as amended).  The lines [pre] pass, and for the line [v] an
    exception leaves the body of the block that builds the path (boreholes
    script), the bedrock surface or its confidence zone (bedrock part of
    the profile script).  Then the log ends with the handler's message and
    [SystemError] leaves the loop: the run ends there, whatever lines
    [post] were still to come, none of which is opened.  The messages for
    the path (ERROR 002) and for the bedrock surface (ERROR 009) name the
    line; the one for the confidence zone (ERROR 010) names the bedrock
    raster by its base name. *)
Theorem failure_ends_the_run
    fails bdrkDEM_basename scratchDir_basename pre v post :
  Forall (fun u => forall s, fails u s = false) pre ->
  (fails v PathStage = true ->
   run_lines (boreholes_script fails scratchDir_basename)
             (pre ++ v :: post)%list
   = ((map analyzing pre
       ++ [analyzing v;
           ("ERROR 002: Failed to create the elevation route polyline for "
            ++ v)%string])%list,
      Some SystemError)) /\
  (fails v SurfaceStage = true ->
   run_lines (bedrock_script fails bdrkDEM_basename scratchDir_basename)
             (pre ++ v :: post)%list
   = ((map analyzing pre
       ++ [analyzing v;
           ("ERROR 009: Failed to create bedrock surface for "
            ++ v)%string])%list,
      Some SystemError)) /\
  (fails v SurfaceStage = false -> fails v ConfidenceStage = true ->
   run_lines (bedrock_script fails bdrkDEM_basename scratchDir_basename)
             (pre ++ v :: post)%list
   = ((map analyzing pre
       ++ [analyzing v;
           ("ERROR 010: Failed to create confidence zone for "
            ++ bdrkDEM_basename)%string])%list,
      Some SystemError)).
Proof.
  intros Hpre. split; [|split].
  - intros Hv.
    pose proof (boreholes_script_pass fails scratchDir_basename pre Hpre)
      as Hpass.
    unfold boreholes_script in *.
    exact (run_lines_fail [] _ _ pre v post Hpass (Forall_nil _) Hv).
  - intros Hv.
    pose proof (bedrock_script_pass fails bdrkDEM_basename
                  scratchDir_basename pre Hpre) as Hpass.
    unfold bedrock_script in *.
    exact (run_lines_fail [] _ _ pre v post Hpass (Forall_nil _) Hv).
  - intros Hs Hv.
    pose proof (bedrock_script_pass fails bdrkDEM_basename
                  scratchDir_basename pre Hpre) as Hpass.
    unfold bedrock_script in *.
    assert (Hbefore : Forall (fun b' => raises b' v = false)
              [ {| raises := fun v => fails v SurfaceStage;
                   error_message := fun v =>
                     "ERROR 009: Failed to create bedrock surface for " ++ v |} ])
      by (repeat constructor; exact Hs).
    match type of Hbefore with
    | Forall _ ?before =>
        exact (run_lines_fail before _ _ pre v post Hpass Hbefore Hv)
    end.
Qed.

Lemma failure_ends_the_run_witness :
  run_lines (bedrock_script fails_surface_of_A "bdrk.tif" "scratch.gdb")
            ["A"; "B"]
  = (["*Analyzing A...*";
      "ERROR 009: Failed to create bedrock surface for A"],
     Some SystemError).
Proof.
  refine (proj1 (proj2 (failure_ends_the_run
            fails_surface_of_A "bdrk.tif" "scratch.gdb" [] "A" ["B"] _)) _).
  - constructor.
  - reflexivity.
Defined.

(** C1, the claim as stated, fails: in a run over the lines A and B in
    which the path of A cannot be built, the run ends with [SystemError]
    after the message for A, and B is never opened; likewise when the
    bedrock surface of A, or its confidence zone, cannot be built. *)
Lemma run_does_not_proceed :
  (run_lines (boreholes_script fails_path_of_A "scratch.gdb") ["A"; "B"]
   = (["*Analyzing A...*";
       "ERROR 002: Failed to create the elevation route polyline for A"],
      Some SystemError) /\
   ~ In (analyzing "B")
        (fst (run_lines (boreholes_script fails_path_of_A "scratch.gdb")
                        ["A"; "B"]))) /\
  (run_lines (bedrock_script fails_surface_of_A "bdrk.tif" "scratch.gdb")
             ["A"; "B"]
   = (["*Analyzing A...*";
       "ERROR 009: Failed to create bedrock surface for A"],
      Some SystemError) /\
   ~ In (analyzing "B")
        (fst (run_lines (bedrock_script fails_surface_of_A "bdrk.tif"
                           "scratch.gdb") ["A"; "B"]))) /\
  (run_lines (bedrock_script fails_confidence_of_A "bdrk.tif" "scratch.gdb")
             ["A"; "B"]
   = (["*Analyzing A...*";
       "ERROR 010: Failed to create confidence zone for bdrk.tif"],
      Some SystemError) /\
   ~ In (analyzing "B")
        (fst (run_lines (bedrock_script fails_confidence_of_A "bdrk.tif"
                           "scratch.gdb") ["A"; "B"]))).
Proof.
  split; [|split]; (split; [reflexivity|]);
    simpl; intros [H | [H | []]]; discriminate.
Qed.

(** Without a failure both lines are opened and the run ends normally. *)
Example run_without_failure :
  run_lines (boreholes_script (fun _ _ => false) "scratch.gdb") ["A"; "B"]
  = (["*Analyzing A...*"; "*Analyzing B...*"], None).
Proof. reflexivity. Qed.

End DriverFacts.

(* ------------------------------------------------------------------ *)
(** ** Surface profiler and confidence zones *)

Section SegmentProfileFacts.
Import Num SegmentProfile.

Local Open Scope string_scope.

(** The cursor on a row as stored, by the values of the two FID fields. *)
Lemma classify_row_cases row :
  (FID_extent row = (-1)%Z -> classify_row row = None) /\
  (FID_extent row = 1%Z -> FID_buff row = (-1)%Z ->
   classify_row row = Some (set_CONFIDENCE row "INFERRED")) /\
  (FID_extent row = 1%Z -> FID_buff row = 1%Z ->
   classify_row row = Some (set_CONFIDENCE row "CONFIDENT")).
Proof.
  destruct row as [fe fb c]. unfold classify_row, set_CONFIDENCE. simpl.
  repeat split; intros; subst; reflexivity.
Qed.

(** C5.  Of the pieces of the union, the cursor deletes those that are not
    in the footprint, writes INFERRED on those in the footprint and not in
    the buffer, and CONFIDENT on those in both; the table that is left holds
    the pieces of the footprint, in order, each with one of the two values. *)
Theorem confidenceZone_classification :
  (forall b, confidenceZone [{| in_extent := false; in_buffer := b |}] = []) /\
  confidenceZone [{| in_extent := true; in_buffer := false |}]
    = [{| FID_extent := 1; FID_buff := -1; CONFIDENCE := Some "INFERRED" |}] /\
  confidenceZone [{| in_extent := true; in_buffer := true |}]
    = [{| FID_extent := 1; FID_buff := 1; CONFIDENCE := Some "CONFIDENT" |}] /\
  (forall pieces,
     confidenceZone pieces
     = map (fun p => {| FID_extent := 1;
                        FID_buff := if in_buffer p then 1 else -1;
                        CONFIDENCE := Some (if in_buffer p then "CONFIDENT"
                                            else "INFERRED") |})
           (filter in_extent pieces)) /\
  (forall pieces row, In row (confidenceZone pieces) ->
     CONFIDENCE row = Some "INFERRED" \/ CONFIDENCE row = Some "CONFIDENT").
Proof.
  assert (Hall : forall pieces,
     confidenceZone pieces
     = map (fun p => {| FID_extent := 1;
                        FID_buff := if in_buffer p then 1 else -1;
                        CONFIDENCE := Some (if in_buffer p then "CONFIDENT"
                                            else "INFERRED") |})
           (filter in_extent pieces)).
  { unfold confidenceZone.
    induction pieces as [|[[|] [|]] pieces IH]; simpl; rewrite ?IH; reflexivity. }
  split; [intros [|]; reflexivity|].
  split; [reflexivity|]. split; [reflexivity|]. split; [exact Hall|].
  intros pieces row Hin. rewrite Hall in Hin.
  apply in_map_iff in Hin. destruct Hin as (p & <- & _). simpl.
  destruct (in_buffer p); auto.
Qed.

(** Accumulating from [acc], for the comparison of the two loops. *)
Lemma moveLength_fold_le cpDir profileAlign mainLineAlign geometries :
  Forall (fun g => 0 <= length g) geometries ->
  forall a b, a <= b ->
  fold_left (fun moveLength geometry =>
    if origin_on_left cpDir then
      if Qltb (XMin mainLineAlign) (XMin profileAlign)
         && Qeqb (XMin (extent geometry)) (XMin mainLineAlign)
      then moveLength + length geometry else moveLength
    else
      if Qltb (XMax profileAlign) (XMax mainLineAlign)
         && Qeqb (XMax (extent geometry)) (XMax mainLineAlign)
      then moveLength + length geometry else moveLength)
    geometries a
  <=
  fold_left (fun moveLength geometry =>
    if origin_on_left cpDir then
      if Qltb (XMin mainLineAlign) (XMin profileAlign)
         || Qeqb (XMin (extent geometry)) (XMin mainLineAlign)
      then moveLength + length geometry else moveLength
    else
      if Qltb (XMax profileAlign) (XMax mainLineAlign)
         || Qeqb (XMax (extent geometry)) (XMax mainLineAlign)
      then moveLength + length geometry else moveLength)
    geometries b.
Proof.
  induction 1 as [|g gs Hg _ IH]; intros a b Hab; simpl; [exact Hab|].
  apply IH.
  destruct (origin_on_left cpDir).
  - destruct (Qltb (XMin mainLineAlign) (XMin profileAlign)),
      (Qeqb (XMin (extent g)) (XMin mainLineAlign)); simpl; lra.
  - destruct (Qltb (XMax profileAlign) (XMax mainLineAlign)),
      (Qeqb (XMax (extent g)) (XMax mainLineAlign)); simpl; lra.
Qed.

(** The bedrock offset never exceeds the groundwater offset. *)
Lemma moveLength_bdrk_le_gwl cpDir profileAlign mainLineAlign geometries :
  Forall (fun g => 0 <= length g) geometries ->
  moveLength_bdrk cpDir profileAlign mainLineAlign geometries
  <= moveLength_gwl cpDir profileAlign mainLineAlign geometries.
Proof.
  intros H. unfold moveLength_bdrk, moveLength_gwl.
  apply moveLength_fold_le; [exact H | lra].
Qed.

(** C9, evaluated.  A line read from its western end whose raster leaves a
    remainder of 100 at the origin end and one of 200 at the far end: the
    bedrock loop adds the first only, the groundwater loop adds both. *)
Theorem moveLength_bdrk_gwl_differ :
  moveLength_bdrk "Northwest" profile_extent line_extent remainders == 100 /\
  moveLength_gwl "Northwest" profile_extent line_extent remainders == 300 /\
  ~ moveLength_bdrk "Northwest" profile_extent line_extent remainders
    == moveLength_gwl "Northwest" profile_extent line_extent remainders.
Proof.
  split; [reflexivity|]. split; [reflexivity|].
  intros H. vm_compute in H. discriminate.
Qed.

End SegmentProfileFacts.

(* ------------------------------------------------------------------ *)
(** ** The worked examples in binary64 *)

Section Binary64Facts.

Set Warnings "-inexact-float".

(** In binary64 the [Feet] stick of the example runs from
    152.40000000000001 to 121.92, and 152.40000000000001 is below 500. *)
Example stick_Feet_500_100 :
  Binary64.stick_Feet 500 100 1 = (152.4, 121.92)%float /\
  PrimFloat.ltb (fst (Binary64.stick_Feet 500 100 1)) 500 = true.
Proof. split; reflexivity. Qed.

Example stick_Meters_500_100 :
  Binary64.stick_Meters 500 100 2 = (1000, 800)%float.
Proof. reflexivity. Qed.

(** 25 / 50 and -25 / 50 are exact ties in binary64 as well. *)
Example quotient_ties :
  (25 / 50 = 0.5)%float /\ (-25 / 50 = -0.5)%float.
Proof. split; reflexivity. Qed.

Example cartesianToGeographic_binary64 :
  Binary64.cartesianToGeographic 300 = Some (-30)%float /\
  Binary64.cartesianToGeographic (-100) = None /\
  Binary64.cartesianToGeographic (-90) = None /\
  Binary64.cartesianToGeographic 0 = Some 270%float.
Proof. repeat split. Qed.

(** For the double just above -90 the difference [-90 - angle] is
    [-2^-46], and adding 360 rounds to 360 itself: the value returned is
    not below 360. *)
Example cartesianToGeographic_reaches_360 :
  PrimFloat.ltb (-90) (-89.99999999999999) = true /\
  Binary64.cartesianToGeographic (-89.99999999999999) = Some 360%float /\
  Binary64.cartesianToGeographic 270 = Some 0%float.
Proof. repeat split. Qed.

Set Warnings "+inexact-float".

End Binary64Facts.

(* ================================================================== *)
(** * Further properties of the scripts *)

(* ------------------------------------------------------------------ *)
(** ** Messages and the list of traverse lines *)

Section MessagesFacts.
Import Messages.

Local Open Scope string_scope.

Lemma split_newline_not_nil msg : split_newline msg <> [].
Proof.
  destruct msg as [|c rest]; simpl; [discriminate|].
  destruct (Ascii.eqb c newline); [discriminate|].
  destruct (split_newline rest); discriminate.
Qed.

Lemma concat_cons sep x xs :
  xs <> [] -> String.concat sep (x :: xs) = x ++ sep ++ String.concat sep xs.
Proof. destruct xs; [congruence | reflexivity]. Qed.

(** Joining the pieces with newlines gives the text back. *)
Lemma join_split_newline msg :
  String.concat (String newline EmptyString) (split_newline msg) = msg.
Proof.
  induction msg as [|c rest IH]; [reflexivity|]. simpl.
  pose proof (split_newline_not_nil rest) as Hne.
  destruct (Ascii.eqb c newline) eqn:E.
  - apply Ascii.eqb_eq in E. subst c.
    rewrite concat_cons by assumption. simpl. rewrite IH. reflexivity.
  - destruct (split_newline rest) as [|p ps]; [congruence|].
    destruct ps as [|p' ps];
      change (String c (String.concat (String newline EmptyString) (p :: ps))
              = String c rest) || idtac.
    + simpl in *. rewrite IH. reflexivity.
    + transitivity
        (String c (String.concat (String newline EmptyString) (p :: p' :: ps)));
        [reflexivity | rewrite IH; reflexivity].
Qed.

Lemma split_newline_length msg :
  List.length (split_newline msg) = S (count_newlines msg).
Proof.
  induction msg as [|c rest IH]; [reflexivity|]. simpl.
  destruct (Ascii.eqb c newline); simpl; [rewrite IH; reflexivity|].
  destruct (split_newline rest); simpl in *; [discriminate | exact IH].
Qed.

Lemma split_newline_pieces msg :
  Forall (fun piece => count_newlines piece = O) (split_newline msg).
Proof.
  induction msg as [|c rest IH]; simpl; [repeat constructor|].
  destruct (Ascii.eqb c newline) eqn:E; [constructor; [reflexivity | exact IH]|].
  destruct (split_newline rest) as [|p ps]; [repeat constructor; simpl; rewrite E; reflexivity|].
  inversion IH; subst. constructor; [simpl; rewrite E; assumption | assumption].
Qed.

(** X1.  [AddMsgAndPrint] with severity 0, 1 or 2 adds one geoprocessing message
    per line of the text: one more than the text has newlines, none holding
    a newline, and joined by newlines they give the text back.  With any
    other severity nothing is added; the text is printed either way. *)
Theorem AddMsgAndPrint_lines msg severity :
  fst (AddMsgAndPrint msg severity) = [msg] /\
  ((0 <= severity <= 2)%Z ->
     map gp_text (snd (AddMsgAndPrint msg severity)) = split_newline msg /\
     String.concat (String newline EmptyString)
       (map gp_text (snd (AddMsgAndPrint msg severity))) = msg /\
     List.length (snd (AddMsgAndPrint msg severity)) = S (count_newlines msg) /\
     Forall (fun m => count_newlines (gp_text m) = O)
            (snd (AddMsgAndPrint msg severity))) /\
  (~ (0 <= severity <= 2)%Z -> snd (AddMsgAndPrint msg severity) = []).
Proof.
  split; [reflexivity|]. unfold AddMsgAndPrint. simpl. split.
  - intros Hsev.
    assert (Hmap : map gp_text
      (flat_map (fun line =>
         if Z.eqb severity 0 then [AddMessage line]
         else if Z.eqb severity 1 then [AddWarning line]
         else if Z.eqb severity 2 then [AddError line]
         else []) (split_newline msg)) = split_newline msg).
    { induction (split_newline msg) as [|l ls IH]; [reflexivity|].
      simpl. rewrite map_app, IH.
      destruct (Z.eqb_spec severity 0); [reflexivity|].
      destruct (Z.eqb_spec severity 1); [reflexivity|].
      destruct (Z.eqb_spec severity 2); [reflexivity|]. lia. }
    split; [exact Hmap|]. split; [rewrite Hmap; apply join_split_newline|].
    split.
    + rewrite <- (length_map gp_text), Hmap. apply split_newline_length.
    + apply (proj1 (Forall_map gp_text (fun t => count_newlines t = O) _)).
      rewrite Hmap. apply split_newline_pieces.
  - intros Hsev.
    induction (split_newline msg) as [|l ls IH]; [reflexivity|].
    simpl. rewrite IH.
    destruct (Z.eqb_spec severity 0); [lia|].
    destruct (Z.eqb_spec severity 1); [lia|].
    destruct (Z.eqb_spec severity 2); [lia|]. reflexivity.
Qed.

Lemma AddMsgAndPrint_lines_witness :
  (0 <= 2 <= 2)%Z /\
  map gp_text (snd (AddMsgAndPrint
    (String "a" (String newline (String "b" EmptyString))) 2)) = ["a"; "b"] /\
  ~ (0 <= 3 <= 2)%Z /\
  snd (AddMsgAndPrint "a" 3) = [].
Proof.
  assert (H2 : (0 <= 2 <= 2)%Z) by lia.
  assert (H3 : ~ (0 <= 3 <= 2)%Z) by lia.
  split; [exact H2|]. split.
  - exact (proj1 (proj1 (proj2 (AddMsgAndPrint_lines
      (String "a" (String newline (String "b" EmptyString))) 2)) H2)).
  - split; [exact H3|].
    exact (proj2 (proj2 (AddMsgAndPrint_lines "a" 3)) H3).
Defined.

End MessagesFacts.

Section UniqueValuesFacts.
Import Messages.

Lemma ascii_compare_refl c : Ascii.compare c c = Eq.
Proof. unfold Ascii.compare. apply N.compare_refl. Qed.

Lemma string_compare_refl s : String.compare s s = Eq.
Proof.
  induction s as [|c s IH]; simpl; [reflexivity|].
  rewrite ascii_compare_refl. exact IH.
Qed.

Lemma ascii_compare_lt_trans a b c :
  Ascii.compare a b = Lt -> Ascii.compare b c = Lt -> Ascii.compare a c = Lt.
Proof.
  unfold Ascii.compare. rewrite !N.compare_lt_iff. apply N.lt_trans.
Qed.

Lemma string_compare_lt_trans s1 : forall s2 s3,
  String.compare s1 s2 = Lt -> String.compare s2 s3 = Lt ->
  String.compare s1 s3 = Lt.
Proof.
  induction s1 as [|a s1 IH]; intros [|b s2] [|c s3]; simpl;
    try discriminate; try reflexivity.
  destruct (Ascii.compare a b) eqn:Eab; try discriminate;
    destruct (Ascii.compare b c) eqn:Ebc; try discriminate; intros H12 H23.
  - apply Ascii.compare_eq_iff in Eab, Ebc. subst.
    rewrite ascii_compare_refl. eauto.
  - apply Ascii.compare_eq_iff in Eab. subst. rewrite Ebc. reflexivity.
  - apply Ascii.compare_eq_iff in Ebc. subst. rewrite Eab. reflexivity.
  - rewrite (ascii_compare_lt_trans _ _ _ Eab Ebc). reflexivity.
Qed.

Lemma str_le_cases a b : String.leb a b = true <-> str_lt a b \/ a = b.
Proof.
  unfold str_lt, String.leb.
  destruct (String.compare a b) eqn:E; split; intros H; auto; try discriminate.
  - right. apply String.compare_eq_iff. exact E.
  - destruct H as [H | ->]; [discriminate|].
    rewrite string_compare_refl in E. discriminate.
Qed.

Lemma str_lt_irrefl a : ~ str_lt a a.
Proof. unfold str_lt. rewrite string_compare_refl. discriminate. Qed.

Lemma str_not_le_lt a b : String.leb a b = false -> str_lt b a.
Proof.
  unfold str_lt, String.leb. rewrite (String.compare_antisym b a).
  destruct (String.compare a b); simpl; intros; congruence.
Qed.

Lemma insert_sorted_perm x l : Permutation (insert_sorted x l) (x :: l).
Proof.
  induction l as [|y l IH]; simpl; [reflexivity|].
  destruct (String.leb x y); [reflexivity|].
  rewrite IH. apply perm_swap.
Qed.

Lemma sorted_perm l : Permutation (sorted l) l.
Proof.
  induction l as [|x l IH]; simpl; [constructor|].
  rewrite insert_sorted_perm. constructor. exact IH.
Qed.

(** Inserting a value that is not in a strictly ascending list. *)
Lemma insert_sorted_strict x l :
  StronglySorted str_lt l -> ~ In x l ->
  StronglySorted str_lt (insert_sorted x l).
Proof.
  induction 1 as [|y l Hl IH Hy]; intros Hx; simpl.
  - repeat constructor.
  - destruct (String.leb x y) eqn:E.
    + assert (Hxy : str_lt x y).
      { apply str_le_cases in E. destruct E as [E | ->]; [exact E|].
        exfalso. apply Hx. left. reflexivity. }
      constructor; [constructor; assumption|].
      constructor; [exact Hxy|].
      rewrite Forall_forall in *. intros z Hz.
      exact (string_compare_lt_trans _ _ _ Hxy (Hy z Hz)).
    + constructor.
      * apply IH. intros Hin. apply Hx. right. exact Hin.
      * apply str_not_le_lt in E.
        rewrite Forall_forall in *. intros z Hz.
        apply (Permutation_in _ (insert_sorted_perm x l)) in Hz.
        destruct Hz as [<- | Hz]; auto.
Qed.

Lemma sorted_strict l : NoDup l -> StronglySorted str_lt (sorted l).
Proof.
  induction 1 as [|x l Hx Hl IH]; simpl; [constructor|].
  apply insert_sorted_strict; [exact IH|].
  intros Hin. apply Hx. exact (Permutation_in _ (sorted_perm l) Hin).
Qed.

(** Two strictly ascending lists with the same members are the same list. *)
Lemma strict_sorted_unique l : forall l',
  StronglySorted str_lt l -> StronglySorted str_lt l' ->
  (forall x, In x l <-> In x l') -> l = l'.
Proof.
  induction l as [|a l IH]; intros [|b l'] Hs Hs' Hmem.
  - reflexivity.
  - exfalso. apply (proj2 (Hmem b)). left. reflexivity.
  - exfalso. apply (proj1 (Hmem a)). left. reflexivity.
  - inversion Hs as [|? ? Hl Ha]; inversion Hs' as [|? ? Hl' Hb]; subst.
    rewrite Forall_forall in Ha, Hb.
    assert (Hab : a = b).
    { destruct (proj1 (Hmem a) (or_introl eq_refl)) as [E | Hin]; [auto|].
      destruct (proj2 (Hmem b) (or_introl eq_refl)) as [E | Hin']; [auto|].
      exfalso. apply (str_lt_irrefl a).
      exact (string_compare_lt_trans _ _ _ (Ha b Hin') (Hb a Hin)). }
    subst b. f_equal. apply IH; try assumption.
    intros x. split; intros Hx.
    + destruct (proj1 (Hmem x) (or_intror Hx)) as [<- | H]; [|exact H].
      exfalso. exact (str_lt_irrefl _ (Ha _ Hx)).
    + destruct (proj2 (Hmem x) (or_intror Hx)) as [<- | H]; [|exact H].
      exfalso. exact (str_lt_irrefl _ (Hb _ Hx)).
Qed.

(** [sorted] gives the same list for every listing of a set. *)
Lemma sorted_of_permutation l l' :
  NoDup l -> Permutation l l' -> sorted l = sorted l'.
Proof.
  intros Hnd Hperm.
  apply strict_sorted_unique.
  - apply sorted_strict. exact Hnd.
  - apply sorted_strict. exact (Permutation_NoDup Hperm Hnd).
  - intros x. split; intros H.
    + apply (Permutation_in _ (Permutation_sym (sorted_perm l'))).
      apply (Permutation_in _ Hperm).
      exact (Permutation_in _ (sorted_perm l) H).
    + apply (Permutation_in _ (Permutation_sym (sorted_perm l))).
      apply (Permutation_in _ (Permutation_sym Hperm)).
      exact (Permutation_in _ (sorted_perm l') H).
Qed.

(** X2.  [unique_values] lists every value of the column once, in strictly
    ascending order, and nothing else; and whatever order the set is listed
    in, [sorted] gives this list. *)
Theorem unique_values_sorted_distinct column :
  (forall v, In v (unique_values column) <-> In v column) /\
  NoDup (unique_values column) /\
  StronglySorted str_lt (unique_values column) /\
  (forall elems, NoDup elems -> (forall v, In v elems <-> In v column) ->
     sorted elems = unique_values column).
Proof.
  unfold unique_values.
  pose proof (NoDup_nodup string_dec column) as Hnd.
  pose proof (sorted_perm (nodup string_dec column)) as Hperm.
  split; [|split; [|split]].
  - intros v. split; intros H.
    + apply (nodup_In string_dec). exact (Permutation_in _ Hperm H).
    + apply (Permutation_in _ (Permutation_sym Hperm)).
      apply (nodup_In string_dec). exact H.
  - exact (Permutation_NoDup (Permutation_sym Hperm) Hnd).
  - apply sorted_strict. exact Hnd.
  - intros elems Hel Hmem. apply sorted_of_permutation; [exact Hel|].
    apply NoDup_Permutation; [exact Hel | exact Hnd|].
    intros v. rewrite Hmem, (nodup_In string_dec). reflexivity.
Qed.

Lemma unique_values_sorted_distinct_witness :
  NoDup ["A"; "B"; "C"]%string /\
  sorted ["A"; "B"; "C"]%string = unique_values ["B"; "A"; "C"; "A"]%string.
Proof.
  assert (Hnd : NoDup ["A"; "B"; "C"]%string).
  { repeat constructor; simpl; intuition discriminate. }
  split; [exact Hnd|].
  apply (proj2 (proj2 (proj2
    (unique_values_sorted_distinct ["B"; "A"; "C"; "A"]%string)))
    _ Hnd).
  intros v. simpl. intuition.
Defined.

End UniqueValuesFacts.

(* ------------------------------------------------------------------ *)
(** ** The loop of [boreholes] and [locateEvents_Table] *)

Section BoreholesLoopFacts.
Import Num Boreholes BoreholesLoop.

Local Open Scope string_scope.

Lemma boreholes_fold_sticks elevUnits f ve id_pref insertRow rows :
  unit_factor elevUnits = Some f ->
  forall i out msgs,
  fold_left (boreholes_step elevUnits ve id_pref insertRow) rows (i, out, msgs)
  = ((i + List.length rows)%nat,
     (out ++ filter insertRow (sticks_from f ve id_pref i rows))%list,
     (msgs ++ map (fun s => CouldNotCreateFeature (OBJECTID (attrs s)))
               (filter (fun s => negb (insertRow s))
                       (sticks_from f ve id_pref i rows)))%list).
Proof.
  intros Hf. induction rows as [|row rows IH]; intros i out msgs; simpl.
  - rewrite Nat.add_0_r, !app_nil_r. reflexivity.
  - rewrite (boreholes_step_Some _ f) by assumption. cbv zeta.
    destruct (insertRow (make_stick f ve id_pref (S i) row)) eqn:E;
      rewrite IH; simpl; rewrite <- ?app_assoc, Nat.add_succ_r; reflexivity.
Qed.

Lemma boreholes_fold_unknown_units elevUnits ve id_pref insertRow rows :
  unit_factor elevUnits = None ->
  forall st,
  fold_left (boreholes_step elevUnits ve id_pref insertRow) rows st = st.
Proof.
  intros Hf. induction rows as [|row rows IH]; intros st; simpl; [reflexivity|].
  rewrite boreholes_step_None by assumption. apply IH.
Qed.


Lemma boreholes_run_sticks elevUnits f ve id_pref insertRow rows :
  unit_factor elevUnits = Some f ->
  boreholes_run elevUnits ve id_pref insertRow rows
  = (List.length rows,
     filter insertRow (sticks_from f ve id_pref 0 rows),
     map (fun s => CouldNotCreateFeature (OBJECTID (attrs s)))
         (filter (fun s => negb (insertRow s))
                 (sticks_from f ve id_pref 0 rows))).
Proof.
  intros Hf. unfold boreholes_run.
  rewrite (boreholes_fold_sticks _ f) by assumption. reflexivity.
Qed.

Lemma boreholes_run_unknown_units elevUnits ve id_pref insertRow rows :
  unit_factor elevUnits = None ->
  boreholes_run elevUnits ve id_pref insertRow rows = (O, [], []).
Proof.
  intros Hf. unfold boreholes_run.
  apply boreholes_fold_unknown_units. exact Hf.
Qed.



(** *** Stick identifiers *)

Lemma append_inj_l p : forall a b, (p ++ a = p ++ b)%string -> a = b.
Proof.
  induction p as [|c p IH]; simpl; intros a b H; [exact H|].
  injection H as H. auto.
Qed.

Lemma format_id_inj id_pref i j :
  format_id id_pref i = format_id id_pref j -> i = j.
Proof.
  unfold format_id. intros H. apply append_inj_l in H.
  apply (f_equal NilEmpty.uint_of_string) in H.
  rewrite !NilEmpty.usu in H. injection H as H.
  apply DecimalNat.Unsigned.to_uint_inj. exact H.
Qed.

Lemma sticks_from_ids f ve id_pref rows : forall i,
  map stick_id (sticks_from f ve id_pref i rows)
  = map (format_id id_pref) (seq (S i) (List.length rows)).
Proof.
  induction rows as [|row rows IH]; intros i; simpl; [reflexivity|].
  rewrite IH. reflexivity.
Qed.

Lemma NoDup_map_injective {A B} (g : A -> B) l :
  (forall x y, g x = g y -> x = y) -> NoDup l -> NoDup (map g l).
Proof.
  intros Hinj. induction 1 as [|x l Hx Hl IH]; simpl; constructor; [|exact IH].
  intros Hin. apply in_map_iff in Hin. destruct Hin as (y & Hy & Hin).
  apply Hinj in Hy. subst y. exact (Hx Hin).
Qed.

Lemma NoDup_map_filter {A B} (g : A -> B) (keep : A -> bool) l :
  NoDup (map g l) -> NoDup (map g (filter keep l)).
Proof.
  induction l as [|x l IH]; simpl; intros H; [constructor|].
  inversion H as [|? ? Hx Hl]; subst.
  destruct (keep x); simpl; [|auto].
  constructor; [|auto].
  intros Hin. apply Hx. apply in_map_iff in Hin.
  destruct Hin as (y & Hy & Hin). apply filter_In in Hin.
  apply in_map_iff. exists y. tauto.
Qed.

(** X4.  The sticks of one run carry pairwise different identifiers: the
    identifier of a stick is the prefix followed by the position of its row
    among the rows read, whether or not earlier rows were refused. *)
Theorem boreholes_ids_distinct elevUnits ve id_pref insertRow rows :
  NoDup (map stick_id (boreholes elevUnits ve id_pref insertRow rows)) /\
  forall s, In s (boreholes elevUnits ve id_pref insertRow rows) ->
    exists k, (1 <= k <= List.length rows)%nat /\
              stick_id s = format_id id_pref k /\
              nth_error rows (k - 1) = Some (attrs s).
Proof.
  destruct (unit_factor elevUnits) as [f|] eqn:Hf.
  - pose proof (boreholes_run_sticks _ _ ve id_pref insertRow rows Hf) as Hrun.
    unfold boreholes. rewrite Hrun. simpl.
    split.
    + apply NoDup_map_filter. rewrite sticks_from_ids.
      apply NoDup_map_injective; [|apply seq_NoDup].
      intros i j. apply format_id_inj.
    + intros s Hs. apply filter_In in Hs. destruct Hs as [Hs _].
      clear Hrun.
      assert (Hgen : forall i rows',
        In s (sticks_from f ve id_pref i rows') ->
        exists k, (i < k <= i + List.length rows')%nat /\
                  stick_id s = format_id id_pref k /\
                  nth_error rows' (k - S i) = Some (attrs s)).
      { intros i rows'. revert i.
        induction rows' as [|row rows' IH]; intros i Hin; [destruct Hin|].
        destruct Hin as [<- | Hin].
        - exists (S i). simpl. rewrite Nat.sub_diag. split; [lia|]. auto.
        - destruct (IH _ Hin) as (k & Hk & Hid & Hnth).
          exists k. simpl List.length. split; [lia|]. split; [exact Hid|].
          replace (k - S i)%nat with (S (k - S (S i))) by lia. exact Hnth. }
      destruct (Hgen _ _ Hs) as (k & Hk & Hid & Hnth).
      exists k. split; [lia|]. split; [exact Hid | exact Hnth].
  - unfold boreholes.
    rewrite (boreholes_run_unknown_units _ ve id_pref insertRow rows Hf). simpl.
    split; [constructor | intros s []].
Qed.

Lemma boreholes_ids_distinct_witness :
  let s := make_stick 1 2 "L" 1 example_row in
  In s (boreholes "Meters" 2 "L" (fun _ => true) [example_row]) /\
  exists k, (1 <= k <= 1)%nat /\ stick_id s = format_id "L" k /\
            nth_error [example_row] (k - 1) = Some (attrs s).
Proof.
  intros s.
  assert (Hin : In s (boreholes "Meters" 2 "L" (fun _ => true) [example_row]))
    by (left; reflexivity).
  split; [exact Hin|].
  exact (proj2 (boreholes_ids_distinct "Meters" 2 "L" (fun _ => true)
                  [example_row]) s Hin).
Defined.

End BoreholesLoopFacts.

Section LocateEventsFacts.
Import Num Boreholes.

Lemma DeleteIdentical_In nulls_identical rows : forall seen r,
  In r (DeleteIdentical nulls_identical seen rows) -> In r rows.
Proof.
  induction rows as [|x rows IH]; simpl; intros seen r H; [exact H|].
  destruct (existsb _ seen).
  - right. eapply IH. exact H.
  - destruct H as [-> | H]; [left; reflexivity | right; eapply IH; exact H].
Qed.

(** The first row always stays. *)
Lemma DeleteIdentical_head nulls_identical x rows :
  exists rest, DeleteIdentical nulls_identical [] (x :: rows) = x :: rest.
Proof. simpl. eauto. Qed.

(** X5.  [locateEvents_Table] never makes a row up: every row it returns is one
    that [LocateFeaturesAlongRoutes] found for one of the input points, with
    that point's identifier and the measure and offset found.  Rows are
    removed only when more rows than points were found and the features are
    not lines; otherwise every located row is returned, in order. *)
Theorem locateEvents_Table_rows nulls_identical locate pts is_lines :
  (forall r, In r (locateEvents_Table nulls_identical locate pts is_lines) ->
     exists p md,
       In p pts /\
       In md (locate {| pt_OID := pt_OID p; pt_WELLID := pt_WELLID p;
                        xDupDetect := None |}) /\
       r = {| le_OID := pt_OID p; le_WELLID := pt_WELLID p;
              le_fmp := fst md; le_Distance := snd md |}) /\
  (is_lines = true \/
   (List.length (LocateFeaturesAlongRoutes locate (AddField_xDupDetect pts))
    <= List.length pts)%nat ->
   locateEvents_Table nulls_identical locate pts is_lines
   = DeleteField_xDupDetect
       (LocateFeaturesAlongRoutes locate (AddField_xDupDetect pts))).
Proof.
  split.
  - intros r Hr. unfold locateEvents_Table in Hr.
    assert (Hin : exists e,
      In e (LocateFeaturesAlongRoutes locate (AddField_xDupDetect pts)) /\
      r = {| le_OID := pt_OID (ev_point e); le_WELLID := pt_WELLID (ev_point e);
             le_fmp := ev_fmp e; le_Distance := ev_Distance e |}).
    { unfold DeleteField_xDupDetect in Hr. apply in_map_iff in Hr.
      destruct Hr as (e & <- & He). exists e. split; [|reflexivity].
      destruct (_ && _) in He; [|exact He].
      eapply DeleteIdentical_In. exact He. }
    destruct Hin as (e & He & ->).
    unfold LocateFeaturesAlongRoutes in He. apply in_flat_map in He.
    destruct He as (q & Hq & He).
    unfold AddField_xDupDetect in Hq. apply in_map_iff in Hq.
    destruct Hq as (p & <- & Hp).
    apply in_map_iff in He. destruct He as (md & <- & Hmd).
    exists p, md. simpl. auto.
  - intros H. unfold locateEvents_Table.
    assert (Hn : List.length (AddField_xDupDetect pts) = List.length pts)
      by (unfold AddField_xDupDetect; apply length_map).
    rewrite Hn.
    destruct H as [-> | Hle].
    + rewrite andb_false_r. reflexivity.
    + apply Nat.ltb_ge in Hle. rewrite Hle. reflexivity.
Qed.

Lemma locateEvents_Table_rows_witness :
  let locate := fun _ : BhPoint => [(100, 5)] in
  (List.length (LocateFeaturesAlongRoutes locate
                  (AddField_xDupDetect two_boreholes))
   <= List.length two_boreholes)%nat /\
  map le_OID (locateEvents_Table true locate two_boreholes false)
  = [1%Z; 2%Z].
Proof.
  intros locate.
  assert (Hle : (List.length (LocateFeaturesAlongRoutes locate
                   (AddField_xDupDetect two_boreholes))
                 <= List.length two_boreholes)%nat) by (simpl; lia).
  split; [exact Hle|].
  rewrite (proj2 (locateEvents_Table_rows true locate
                    two_boreholes false) (or_intror Hle)).
  reflexivity.
Defined.

End LocateEventsFacts.

(* ------------------------------------------------------------------ *)
(** ** Path builder: the eight directions *)

Section DirectionFacts.
Import PathBuilder.

Local Open Scope string_scope.

(** X6.  For a line of one row that does not already carry Z and M, the path is
    built exactly when the direction is one of the eight codes, and then
    from the corner of its group: upper left for W-E, NW-SE and E-W, lower
    left for SW-NE, S-N and N-S, upper right for NE-SW, lower right for
    SE-NW. *)
Theorem build_path_corner nulls_first hasZ hasM d :
  hasZ && hasM = false ->
  (In d [Some "W-E"; Some "NW-SE"; Some "E-W"] ->
   build_path nulls_first hasZ hasM [d] = inr (CreateRoutes "UPPER_LEFT")) /\
  (In d [Some "SW-NE"; Some "S-N"; Some "N-S"] ->
   build_path nulls_first hasZ hasM [d] = inr (CreateRoutes "LOWER_LEFT")) /\
  (d = Some "NE-SW" ->
   build_path nulls_first hasZ hasM [d] = inr (CreateRoutes "UPPER_RIGHT")) /\
  (d = Some "SE-NW" ->
   build_path nulls_first hasZ hasM [d] = inr (CreateRoutes "LOWER_RIGHT")) /\
  (recognized d = true <->
   exists cp, build_path nulls_first hasZ hasM [d] = inr (CreateRoutes cp)).
Proof.
  intros HZM. unfold build_path. rewrite HZM.
  repeat split.
  - simpl. intros [<- | [<- | [<- | []]]]; reflexivity.
  - simpl. intros [<- | [<- | [<- | []]]]; reflexivity.
  - intros ->. reflexivity.
  - intros ->. reflexivity.
  - unfold recognized, direction_codes. simpl.
    unfold update_QUAD. simpl.
    destruct (field_is d "W-E"), (field_is d "NW-SE"), (field_is d "E-W"),
      (field_is d "SW-NE"), (field_is d "S-N"), (field_is d "N-S"),
      (field_is d "NE-SW"), (field_is d "SE-NW");
      simpl; intros; eauto; discriminate.
  - unfold recognized, direction_codes. simpl.
    unfold update_QUAD. simpl.
    destruct (field_is d "W-E"), (field_is d "NW-SE"), (field_is d "E-W"),
      (field_is d "SW-NE"), (field_is d "S-N"), (field_is d "N-S"),
      (field_is d "NE-SW"), (field_is d "SE-NW");
      simpl; intros [cp H]; try reflexivity; discriminate.
Qed.

Lemma build_path_corner_witness :
  false && true = false /\
  build_path true false true [Some "NW-SE"] = inr (CreateRoutes "UPPER_LEFT").
Proof.
  split; [reflexivity|].
  apply (proj1 (build_path_corner true false true (Some "NW-SE") eq_refl)).
  right. left. reflexivity.
Defined.

End DirectionFacts.

(* ------------------------------------------------------------------ *)
(** ** The loop over the traverse lines: how a run ends *)

Section RunFacts.
Import Driver.

Lemma run_blocks_result blocks Value :
  (Forall (fun b => raises b Value = false) blocks /\
   run_blocks blocks Value = ([], None)) \/
  (Exists (fun b => raises b Value = true) blocks /\
   exists msg, run_blocks blocks Value = ([msg], Some SystemError)).
Proof.
  induction blocks as [|b blocks IH]; simpl.
  - left. split; [constructor | reflexivity].
  - destruct (raises b Value) eqn:E.
    + right. split; [left; exact E | eauto].
    + destruct IH as [[Hall Hrun] | [Hex Hrun]].
      * left. split; [constructor; assumption | exact Hrun].
      * right. split; [right; exact Hex | exact Hrun].
Qed.

(** X7.  A run ends normally exactly when no block fails for any line, and then
    every line has been opened, in order, and no error is logged; otherwise
    it ends with [SystemError].  No other exception leaves the loop, and in
    either case the lines opened are an initial part of the list. *)
Theorem run_lines_outcome blocks allValue :
  (snd (run_lines blocks allValue) = None \/
   snd (run_lines blocks allValue) = Some SystemError) /\
  (snd (run_lines blocks allValue) = None <->
   Forall (fun v => Forall (fun b => raises b v = false) blocks) allValue) /\
  (snd (run_lines blocks allValue) = None ->
   fst (run_lines blocks allValue) = map analyzing allValue) /\
  (exists opened rest msgs,
     allValue = (opened ++ rest)%list /\
     fst (run_lines blocks allValue) = (map analyzing opened ++ msgs)%list /\
     (List.length msgs <= 1)%nat).
Proof.
  induction allValue as [|v rest IH]; simpl.
  - split; [auto|]. split; [split; [constructor | reflexivity]|].
    split; [reflexivity|]. exists [], [], []. simpl. auto.
  - destruct IH as (Hcase & Hiff & Hlog & (opened & rest' & msgs & Hsplit & Hfst & Hlen)).
    destruct (run_blocks_result blocks v) as [[Hall ->] | [Hex [msg ->]]].
    + destruct (run_lines blocks rest) as [log' r] eqn:Er. simpl in *.
      split; [exact Hcase|]. split.
      * rewrite Hiff. split; intros H; [constructor; assumption|].
        inversion H; assumption.
      * split; [intros H; rewrite (Hlog H); reflexivity|].
        exists (v :: opened), rest', msgs. subst. simpl. auto.
    + simpl. split; [auto|]. split.
      * split; [discriminate|]. intros H. inversion H as [|? ? Hv _]; subst.
        exfalso. rewrite Exists_exists in Hex. destruct Hex as (b & Hb & Hr).
        rewrite Forall_forall in Hv. rewrite (Hv b Hb) in Hr. discriminate.
      * split; [discriminate|].
        exists [v], rest, [msg]. simpl. auto.
Qed.

End RunFacts.

(* ------------------------------------------------------------------ *)
(** ** Schematic transform and [limitString] *)

Section Plan2SideFacts.
Import Num Plan2Side.

Local Open Scope string_scope.

Lemma move_point_idempotent elevUnits moveLength ve p :
  move_point elevUnits moveLength ve (move_point elevUnits moveLength ve p)
  = move_point elevUnits moveLength ve p.
Proof.
  unfold move_point. simpl.
  destruct (String.eqb elevUnits "Meters"), (String.eqb elevUnits "Feet");
    reflexivity.
Qed.

Lemma move_point_X elevUnits moveLength ve p :
  pX (move_point elevUnits moveLength ve p) = pM p + moveLength.
Proof.
  unfold move_point. simpl.
  destruct (String.eqb elevUnits "Meters"), (String.eqb elevUnits "Feet");
    reflexivity.
Qed.

Lemma move_point_ZM elevUnits moveLength ve p :
  pZ (move_point elevUnits moveLength ve p) = pZ p /\
  pM (move_point elevUnits moveLength ve p) = pM p.
Proof.
  unfold move_point. simpl.
  destruct (String.eqb elevUnits "Meters"), (String.eqb elevUnits "Feet");
    split; reflexivity.
Qed.

(** X8.  [plan2side] reads M and Z and writes X and Y only, so running it again
    on its own result changes nothing; it keeps the number of rows, of parts
    and of vertices, and the elevation and the measure of every vertex. *)
Theorem plan2side_idempotent elevUnits moveLength ve ZMLines :
  plan2side elevUnits moveLength ve (plan2side elevUnits moveLength ve ZMLines)
  = plan2side elevUnits moveLength ve ZMLines /\
  map (map (@List.length Point)) (plan2side elevUnits moveLength ve ZMLines)
  = map (map (@List.length Point)) ZMLines /\
  map (map (map pZ)) (plan2side elevUnits moveLength ve ZMLines)
  = map (map (map pZ)) ZMLines /\
  map (map (map pM)) (plan2side elevUnits moveLength ve ZMLines)
  = map (map (map pM)) ZMLines.
Proof.
  unfold plan2side. rewrite !map_map. repeat split;
    apply map_ext; intros shape; rewrite !map_map;
    apply map_ext; intros part; rewrite ?map_map, ?length_map; try reflexivity;
    apply map_ext; intros p.
  - apply move_point_idempotent.
  - apply move_point_ZM.
  - apply move_point_ZM.
Qed.

(** X9.  Along a part whose measures do not decrease, the schematic X written by
    [plan2side] does not decrease either, and it is the measure shifted by
    [moveLength]; under [Meters] or [Feet] with a positive exaggeration a
    vertex that is not lower in elevation is not lower in schematic Y. *)
Theorem plan2side_keeps_order elevUnits moveLength ve :
  (forall part,
     map pX (map (move_point elevUnits moveLength ve) part)
     = map (fun p => pM p + moveLength) part) /\
  (forall part, Sorted Qle (map pM part) ->
     Sorted Qle (map pX (map (move_point elevUnits moveLength ve) part))) /\
  (forall p q, (elevUnits = "Meters" \/ elevUnits = "Feet") -> 0 < ve ->
     pZ p <= pZ q ->
     pY (move_point elevUnits moveLength ve p)
     <= pY (move_point elevUnits moveLength ve q)).
Proof.
  assert (HX : forall part,
     map pX (map (move_point elevUnits moveLength ve) part)
     = map (fun p => pM p + moveLength) part).
  { intros part. rewrite map_map. apply map_ext. intros p.
    apply move_point_X. }
  split; [exact HX|]. split.
  - intros part Hs. rewrite HX.
    induction part as [|p part IH]; simpl; [constructor|].
    inversion Hs as [|? ? Hs' Hhd]; subst.
    constructor; [auto|].
    destruct part as [|q part]; simpl; constructor.
    inversion Hhd; subst. lra.
  - intros p q Hu Hve Hz. unfold move_point. simpl.
    destruct Hu as [-> | ->]; simpl.
    + apply Qmult_le_compat_r; lra.
    + apply Qmult_le_compat_r; [|lra].
      apply Qmult_le_compat_r; [exact Hz | vm_compute; discriminate].
Qed.

Lemma plan2side_keeps_order_witness :
  let part := [ {| pX := 7; pY := 9; pZ := 200; pM := 0 |};
                {| pX := 8; pY := 9; pZ := 210; pM := 50 |} ] in
  Sorted Qle (map pM part) /\
  Sorted Qle (map pX (map (move_point "Feet" 100 2) part)).
Proof.
  intros part.
  assert (Hs : Sorted Qle (map pM part)).
  { repeat constructor. vm_compute. discriminate. }
  split; [exact Hs|].
  exact (proj1 (proj2 (plan2side_keeps_order "Feet" 100 2)) part Hs).
Defined.

(** *** [limitString] *)

Lemma substring_0_length n : forall s,
  (n <= String.length s)%nat ->
  String.length (String.substring 0 n s) = n.
Proof.
  induction n as [|n IH]; intros [|c s]; simpl; intros H; try reflexivity;
    try lia.
  rewrite IH by lia. reflexivity.
Qed.

Lemma substring_0_prefix n : forall s,
  String.prefix (String.substring 0 n s) s = true.
Proof.
  induction n as [|n IH]; intros [|c s]; simpl; try reflexivity.
  destruct (ascii_dec c c); [apply IH | congruence].
Qed.

Lemma prefix_refl s : String.prefix s s = true.
Proof.
  induction s as [|c s IH]; simpl; [reflexivity|].
  destruct (ascii_dec c c); [exact IH | congruence].
Qed.

(** X10.  [limitString] returns the first [limit] characters of the text, or the
    text itself when it has no more than [limit]: the result is a prefix of
    the text, its length is the smaller of the two, and limiting it again
    changes nothing. *)
Theorem limitString_prefix string limit :
  String.length (limitString string limit)
  = Nat.min (String.length string) limit /\
  String.prefix (limitString string limit) string = true /\
  limitString (limitString string limit) limit = limitString string limit /\
  ((String.length string <= limit)%nat <-> limitString string limit = string).
Proof.
  unfold limitString.
  destruct (Nat.ltb_spec limit (String.length string)) as [Hlt | Hge].
  - assert (Hlen : String.length (String.substring 0 limit string) = limit)
      by (apply substring_0_length; lia).
    split; [rewrite Hlen; lia|]. split; [apply substring_0_prefix|].
    split.
    + rewrite Hlen, Nat.ltb_irrefl. reflexivity.
    + split; [lia|]. intros E. rewrite E in Hlen. lia.
  - split; [lia|]. split; [apply prefix_refl|].
    split.
    + destruct (Nat.ltb_spec limit (String.length string)); [lia | reflexivity].
    + split; reflexivity || auto.
Qed.

End Plan2SideFacts.

(* ------------------------------------------------------------------ *)
(** ** The horizontal offset and the confidence cursor *)

Section OffsetFacts.
Import Num SegmentProfile Offsets.

Lemma total_length_app gs gs' :
  total_length (gs ++ gs') == total_length gs + total_length gs'.
Proof.
  induction gs as [|g gs IH]; simpl; [ring|]. rewrite IH. ring.
Qed.

Lemma moveLength_fold_keep (keep : Geometry -> bool) geometries : forall acc,
  fold_left (fun moveLength geometry =>
               if keep geometry then moveLength + length geometry
               else moveLength) geometries acc
  == acc + total_length (filter keep geometries).
Proof.
  induction geometries as [|g gs IH]; intros acc; simpl; [ring|].
  rewrite IH. destruct (keep g); simpl; ring.
Qed.

Lemma moveLength_bdrk_fold cpDir profileAlign mainLineAlign geometries :
  moveLength_bdrk cpDir profileAlign mainLineAlign geometries
  = fold_left (fun moveLength geometry =>
      if profile_offset cpDir profileAlign mainLineAlign
         && at_origin_end cpDir mainLineAlign geometry
      then moveLength + length geometry else moveLength) geometries 0.
Proof.
  unfold moveLength_bdrk, profile_offset, at_origin_end.
  destruct (origin_on_left cpDir); reflexivity.
Qed.

Lemma moveLength_gwl_fold cpDir profileAlign mainLineAlign geometries :
  moveLength_gwl cpDir profileAlign mainLineAlign geometries
  = fold_left (fun moveLength geometry =>
      if profile_offset cpDir profileAlign mainLineAlign
         || at_origin_end cpDir mainLineAlign geometry
      then moveLength + length geometry else moveLength) geometries 0.
Proof.
  unfold moveLength_gwl, profile_offset, at_origin_end.
  destruct (origin_on_left cpDir); reflexivity.
Qed.

Lemma filter_true {A} (l : list A) : filter (fun _ => true) l = l.
Proof. induction l; simpl; congruence. Qed.

Lemma filter_false {A} (l : list A) : filter (fun _ => false) l = [].
Proof. induction l; simpl; congruence. Qed.

(** X11.  The two offsets in closed form.  The bedrock loop adds the remainders
    that touch the origin end of the line when the profile is offset, and
    nothing when it is not; the groundwater loop adds every remainder when
    the profile is offset, and those that touch the origin end when it is
    not.  With no remainder both are zero. *)
Theorem moveLength_closed_form cpDir profileAlign mainLineAlign geometries :
  moveLength_bdrk cpDir profileAlign mainLineAlign geometries
  == (if profile_offset cpDir profileAlign mainLineAlign
      then total_length (filter (at_origin_end cpDir mainLineAlign) geometries)
      else 0) /\
  moveLength_gwl cpDir profileAlign mainLineAlign geometries
  == (if profile_offset cpDir profileAlign mainLineAlign
      then total_length geometries
      else total_length (filter (at_origin_end cpDir mainLineAlign)
                                geometries)) /\
  moveLength_bdrk cpDir profileAlign mainLineAlign [] = 0 /\
  moveLength_gwl cpDir profileAlign mainLineAlign [] = 0.
Proof.
  rewrite moveLength_bdrk_fold, moveLength_gwl_fold.
  rewrite !moveLength_fold_keep.
  destruct (profile_offset cpDir profileAlign mainLineAlign); simpl.
  - rewrite filter_true.
    rewrite (filter_ext _ (at_origin_end cpDir mainLineAlign)) by reflexivity.
    repeat split; try reflexivity; ring.
  - rewrite filter_false.
    rewrite (filter_ext (fun g => at_origin_end cpDir mainLineAlign g)
               (at_origin_end cpDir mainLineAlign)) by reflexivity.
    repeat split; try reflexivity; simpl; ring.
Qed.

End OffsetFacts.

Section ConfidenceCursorFacts.
Import SegmentProfile.

Local Open Scope string_scope.

Lemma classify_row_fids row row' :
  classify_row row = Some row' ->
  FID_extent row' = FID_extent row /\ FID_buff row' = FID_buff row /\
  FID_extent row <> (-1)%Z.
Proof.
  destruct row as [fe fb c]. unfold classify_row, set_CONFIDENCE. simpl.
  destruct (Z.eqb_spec fe (-1)); [discriminate|].
  destruct (Z.eqb fe 1 && Z.eqb fb (-1)); simpl;
    destruct (Z.eqb fe 1 && Z.eqb fb 1); simpl;
    intros [= <-]; auto.
Qed.

Lemma classify_row_idempotent row row' :
  classify_row row = Some row' -> classify_row row' = Some row'.
Proof.
  destruct row as [fe fb c]. unfold classify_row, set_CONFIDENCE. simpl.
  destruct (Z.eqb fe (-1)) eqn:E1, (Z.eqb fe 1) eqn:E2,
    (Z.eqb fb (-1)) eqn:E3, (Z.eqb fb 1) eqn:E4;
    simpl; intros [= <-];
    repeat (simpl; rewrite ?E1, ?E2, ?E3, ?E4); reflexivity.
Qed.

Lemma classify_fids rows :
  map (fun r => (FID_extent r, FID_buff r)) (classify rows)
  = filter (fun fids => negb (Z.eqb (fst fids) (-1)))
           (map (fun r => (FID_extent r, FID_buff r)) rows).
Proof.
  induction rows as [|row rows IH]; simpl; [reflexivity|].
  destruct (classify_row row) as [row'|] eqn:E.
  - destruct (classify_row_fids _ _ E) as (H1 & H2 & H3).
    simpl. rewrite IH, H1, H2.
    destruct (Z.eqb_spec (FID_extent row) (-1)); [contradiction|].
    reflexivity.
  - rewrite IH. destruct row as [fe fb c].
    unfold classify_row in E. simpl in *.
    destruct (Z.eqb fe (-1)); [reflexivity | discriminate].
Qed.

Lemma classify_idempotent rows : classify (classify rows) = classify rows.
Proof.
  induction rows as [|row rows IH]; simpl; [reflexivity|].
  destruct (classify_row row) as [row'|] eqn:E; [|exact IH].
  simpl. rewrite (classify_row_idempotent _ _ E), IH. reflexivity.
Qed.

(** X12.  The confidence cursor with the [del row, cursor] that follows its
    loop.  On a table with no row it raises [NameError].  On a table with
    a row it ends normally: it has deleted exactly the rows whose first
    FID is -1 and changed no FID of the others; run again on a result that
    still has a row it changes nothing, and run again on a result whose
    rows were all deleted it raises [NameError].  A row whose FIDs are not
    the ones tested (first FID neither -1 nor 1, or first FID 1 and second
    neither -1 nor 1) is kept as it is, unclassified. *)
Theorem classify_cursor rows :
  (rows = [] -> update_CONFIDENCE rows = inl NameError) /\
  (rows <> [] ->
   exists out,
     update_CONFIDENCE rows = inr out /\
     map (fun r => (FID_extent r, FID_buff r)) out
     = filter (fun fids => negb (Z.eqb (fst fids) (-1)))
              (map (fun r => (FID_extent r, FID_buff r)) rows) /\
     (out <> [] -> update_CONFIDENCE out = inr out) /\
     (out = [] -> update_CONFIDENCE out = inl NameError)) /\
  (forall row, FID_extent row <> (-1)%Z ->
     (FID_extent row <> 1%Z \/
      (FID_buff row <> (-1)%Z /\ FID_buff row <> 1%Z)) ->
     classify_row row = Some row /\
     update_CONFIDENCE [row] = inr [row]).
Proof.
  split; [|split].
  - intros ->. reflexivity.
  - intros Hne. exists (classify rows).
    split; [destruct rows; [contradiction | reflexivity]|].
    split; [apply classify_fids|].
    split.
    + intros Hout. unfold update_CONFIDENCE.
      rewrite classify_idempotent.
      destruct (classify rows); [contradiction | reflexivity].
    + intros ->. reflexivity.
  - intros [fe fb c] Hne Hother.
    assert (H : classify_row {| FID_extent := fe; FID_buff := fb;
                                CONFIDENCE := c |}
                = Some {| FID_extent := fe; FID_buff := fb;
                          CONFIDENCE := c |}).
    { unfold classify_row, set_CONFIDENCE. simpl in *.
      destruct (Z.eqb fe (-1)) eqn:E1, (Z.eqb fe 1) eqn:E2,
        (Z.eqb fb (-1)) eqn:E3, (Z.eqb fb 1) eqn:E4;
        repeat (simpl; rewrite ?E1, ?E2, ?E3, ?E4); try reflexivity;
        rewrite ?Z.eqb_eq in *; lia. }
    split; [exact H|].
    unfold update_CONFIDENCE, classify. rewrite H. reflexivity.
Qed.

Lemma classify_cursor_witness :
  let row := {| FID_extent := 2; FID_buff := 1; CONFIDENCE := None |} in
  FID_extent row <> (-1)%Z /\
  update_CONFIDENCE [row] = inr [row].
Proof.
  intros row.
  assert (H1 : FID_extent row <> (-1)%Z) by discriminate.
  assert (H2 : FID_extent row <> 1%Z \/
               (FID_buff row <> (-1)%Z /\ FID_buff row <> 1%Z))
    by (left; discriminate).
  split; [exact H1|].
  exact (proj2 (proj2 (proj2 (classify_cursor [])) row H1 H2)).
Defined.

(** A table whose only row lies outside the footprint: the loop deletes
    the row and the cursor ends normally, on a table with no row; on that
    table a second run raises. *)
Example update_CONFIDENCE_all_deleted :
  update_CONFIDENCE [ {| FID_extent := -1; FID_buff := 1;
                         CONFIDENCE := None |} ] = inr [] /\
  update_CONFIDENCE [] = inl NameError.
Proof. split; reflexivity. Qed.

End ConfidenceCursorFacts.

(* ------------------------------------------------------------------ *)
(** ** Rounding, distance ticks and frame bounds *)

Section RoundingFacts.
Import Num GridLines.

Lemma py_round_near q :
  - (1 # 2) <= inject_Z (py_round q) - q <= 1 # 2.
Proof.
  pose proof (Qfloor_le q) as Hlo. pose proof (Qlt_floor q) as Hhi.
  rewrite inject_Z_plus in Hhi. change (inject_Z 1) with 1 in Hhi.
  unfold py_round.
  destruct (Qcompare (q - inject_Z (Qfloor q)) (1 # 2)) eqn:E.
  - apply Qeq_alt in E.
    destruct (Z.even (Qfloor q));
      rewrite ?inject_Z_plus; change (inject_Z 1) with 1; lra.
  - apply Qlt_alt in E. lra.
  - apply Qgt_alt in E. rewrite inject_Z_plus. change (inject_Z 1) with 1. lra.
Qed.

Lemma py_round_Z k : py_round (inject_Z k) = k.
Proof.
  unfold py_round. rewrite Qfloor_Z.
  assert (E : Qcompare (inject_Z k - inject_Z k) (1 # 2) = Lt)
    by (apply (proj1 (Qlt_alt _ _)); lra).
  rewrite E. reflexivity.
Qed.

Lemma py_round_nonneg q : 0 <= q -> (0 <= py_round q)%Z.
Proof.
  intros Hq.
  assert (Hf : (0 <= Qfloor q)%Z)
    by (change 0%Z with (Qfloor 0); apply Qfloor_resp_le; exact Hq).
  destruct (py_round_floor_or_next q) as [-> | ->]; lia.
Qed.

Lemma round2int_near x base :
  0 < base ->
  - (base / 2) <= round2int x base - x <= base / 2.
Proof.
  intros Hb.
  assert (Hx : base * (x / base) == x) by (apply Qmult_div_r; lra).
  pose proof (py_round_near (x / base)) as [Hlo Hhi].
  unfold round2int.
  set (r := inject_Z (py_round (x / base))) in *.
  set (q := x / base) in *.
  assert (H1 : base * (- (1 # 2)) <= base * (r - q))
    by (apply Qmult_le_l; assumption).
  assert (H2 : base * (r - q) <= base * (1 # 2))
    by (apply Qmult_le_l; assumption).
  assert (E : base * (r - q) == base * r - x) by (rewrite <- Hx; ring).
  rewrite E in H1, H2.
  assert (Eh : base / 2 == base * (1 # 2)) by field.
  rewrite Eh. split; lra.
Qed.

(** X13.  [round2int] on whole numbers, as the elevation ticks use it (the
    value rounded is the result of a floor division, the base a whole
    interval of at least one): the result is a whole multiple of the base,
    it is within half a base of the value, and rounding it again gives the
    same number. *)
Theorem round2int_nearest_multiple F yInt :
  (1 <= yInt)%Z ->
  (exists k, round2int (inject_Z F) (inject_Z yInt) == inject_Z (yInt * k)) /\
  - (inject_Z yInt / 2)
    <= round2int (inject_Z F) (inject_Z yInt) - inject_Z F
    <= inject_Z yInt / 2 /\
  round2int (round2int (inject_Z F) (inject_Z yInt)) (inject_Z yInt)
  == round2int (inject_Z F) (inject_Z yInt).
Proof.
  intros Hy.
  assert (Hb : 0 < inject_Z yInt)
    by (change 0 with (inject_Z 0); rewrite <- Zlt_Qlt; lia).
  split; [|split].
  - exists (py_round (inject_Z F / inject_Z yInt)).
    unfold round2int. rewrite inject_Z_mult. reflexivity.
  - apply round2int_near. exact Hb.
  - unfold round2int at 1.
    assert (E : round2int (inject_Z F) (inject_Z yInt) / inject_Z yInt
                == inject_Z (py_round (inject_Z F / inject_Z yInt)))
      by (unfold round2int; field; lra).
    rewrite (py_round_comp _ _ E), py_round_Z. reflexivity.
Qed.

Lemma round2int_nearest_multiple_witness :
  (1 <= 50)%Z /\
  round2int (inject_Z 503) (inject_Z 50) == 500 /\
  round2int (round2int (inject_Z 503) (inject_Z 50)) (inject_Z 50)
  == round2int (inject_Z 503) (inject_Z 50).
Proof.
  assert (H : (1 <= 50)%Z) by lia.
  split; [exact H|]. split; [reflexivity|].
  exact (proj2 (proj2 (round2int_nearest_multiple 503 50 H))).
Defined.

End RoundingFacts.

Section DistanceTickFacts.
Import Num GridLines GridFrame.

Local Open Scope string_scope.

Lemma round2int_of_0 v0 xInt : v0 == 0 -> round2int v0 xInt == 0.
Proof.
  intros E. unfold round2int.
  assert (E' : v0 / xInt == 0) by (rewrite E; unfold Qdiv; ring).
  rewrite (py_round_comp _ _ E'). change (py_round 0) with 0%Z. ring.
Qed.

(** Ticks built by the pattern shared by the branches of [distList], when
    the value rounded is the bound it is compared with: the multiples of
    the interval from 0 to the last one that does not pass the bound. *)
Lemma ticks_shape v0 B xInt :
  0 <= B -> 1 <= xInt -> v0 == 0 ->
  np_arange (round2int v0 xInt)
            (newDistTickMax (round2int B xInt) B xInt + 1) xInt
  = map (fun i => round2int v0 xInt + inject_Z (Z.of_nat i) * xInt)
        (seq 0 (S (Z.to_nat (Qfloor (B / xInt))))).
Proof.
  intros HB Hx Hv0.
  assert (Hk : (0 <= Qfloor (B / xInt))%Z).
  { change 0%Z with (Qfloor 0). apply Qfloor_resp_le.
    apply Qle_shift_div_l; lra. }
  unfold np_arange.
  rewrite (newDistTickMax_floor B xInt) by lra.
  rewrite np_arange_count by (auto using round2int_of_0).
  rewrite Z2Nat.inj_add by lia. change (Z.to_nat 1) with 1%nat.
  rewrite Nat.add_1_r. reflexivity.
Qed.

Lemma ticks_inward v0 B n :
  0 <= B -> (1 <= n)%Z -> v0 == 0 ->
  let ticks :=
    np_arange (round2int v0 (inject_Z n))
              (newDistTickMax (round2int B (inject_Z n)) B (inject_Z n) + 1)
              (inject_Z n) in
  ticks <> [] /\
  Forall (fun x => (exists k, (0 <= k)%Z /\ x == inject_Z (n * k)) /\
                   0 <= x <= B) ticks /\
  B < last ticks 0 + inject_Z n.
Proof.
  intros HB Hn Hv0 ticks.
  assert (Hx : 1 <= inject_Z n)
    by (change 1 with (inject_Z 1); rewrite <- Zle_Qle; exact Hn).
  assert (Hk : (0 <= Qfloor (B / inject_Z n))%Z).
  { change 0%Z with (Qfloor 0). apply Qfloor_resp_le.
    apply Qle_shift_div_l; lra. }
  assert (Hq : inject_Z n * (B / inject_Z n) == B)
    by (apply Qmult_div_r; lra).
  pose proof (Qfloor_le (B / inject_Z n)) as Hlo.
  pose proof (Qlt_floor (B / inject_Z n)) as Hhi.
  rewrite inject_Z_plus in Hhi. change (inject_Z 1) with 1 in Hhi.
  pose proof (round2int_of_0 v0 (inject_Z n) Hv0) as H0.
  subst ticks. rewrite (ticks_shape v0 B (inject_Z n) HB Hx Hv0).
  set (f := Qfloor (B / inject_Z n)) in *.
  assert (Hlo' : inject_Z n * inject_Z f <= B)
    by (rewrite <- Hq; apply Qmult_le_l; [lra | assumption]).
  assert (Hhi' : B < inject_Z n * (inject_Z f + 1))
    by (rewrite <- Hq at 1; apply Qmult_lt_l; [lra | assumption]).
  split; [|split].
  - rewrite seq_S, map_app. intros H. symmetry in H.
    apply app_cons_not_nil in H. exact H.
  - apply Forall_forall. intros t Ht.
    apply in_map_iff in Ht. destruct Ht as (i & <- & Hi).
    apply in_seq in Hi.
    assert (Hi0 : 0 <= inject_Z (Z.of_nat i))
      by (change 0 with (inject_Z 0); rewrite <- Zle_Qle; lia).
    assert (Hif : inject_Z (Z.of_nat i) <= inject_Z f)
      by (rewrite <- Zle_Qle; lia).
    assert (H1 : inject_Z (Z.of_nat i) * inject_Z n
                 <= inject_Z f * inject_Z n)
      by (apply Qmult_le_compat_r; lra).
    assert (H2 : 0 <= inject_Z (Z.of_nat i) * inject_Z n)
      by (apply Qmult_le_0_compat; lra).
    split.
    + exists (Z.of_nat i). split; [lia|].
      rewrite H0, inject_Z_mult. ring.
    + rewrite H0. split; lra.
  - rewrite last_map_seq, Z2Nat.id by assumption. rewrite H0. lra.
Qed.

(** X14.  Distance ticks in meters and in kilometers, for a path length
    that is not negative and a whole interval of at least one unit.  The
    tick list is not empty; every tick is a whole, non-negative number of
    intervals and, converted to schematic meters as the tick loop converts
    it, lies between 0 and [Xmax]; and the last tick is less than one
    interval short of [Xmax]. *)
Theorem distance_ticks_in_frame xUnits Xmax n ticks :
  xUnits = "Meters" \/ xUnits = "Kilometers" ->
  0 <= Xmax -> (1 <= n)%Z ->
  distList xUnits 0 Xmax (inject_Z n) = Some ticks ->
  ticks <> [] /\
  Forall (fun x =>
            (exists k, (0 <= k)%Z /\ x == inject_Z (n * k)) /\
            exists sx, distpnt_x xUnits x = Some sx /\ 0 <= sx <= Xmax)
         ticks /\
  exists sx sn,
    distpnt_x xUnits (last ticks 0) = Some sx /\
    distpnt_x xUnits (inject_Z n) = Some sn /\
    Xmax < sx + sn.
Proof.
  intros [-> | ->] HX Hn.
  - intros [= <-].
    destruct (ticks_inward 0 Xmax n HX Hn (Qeq_refl 0)) as (Hne & Hall & Hlast).
    split; [exact Hne|]. split.
    + eapply Forall_impl; [|exact Hall].
      intros t [Hk Ht]. split; [exact Hk|]. exists t. auto.
    + eexists. eexists. split; [reflexivity|]. split; [reflexivity|].
      exact Hlast.
  - intros [= <-].
    assert (HB : 0 <= Xmax / 1000) by (apply Qle_shift_div_l; lra).
    assert (E : Xmax / 1000 * 1000 == Xmax) by field.
    assert (E0 : 0 / 1000 == 0) by reflexivity.
    destruct (ticks_inward (0 / 1000) (Xmax / 1000) n HB Hn E0)
      as (Hne & Hall & Hlast).
    split; [exact Hne|]. split.
    + eapply Forall_impl; [|exact Hall].
      intros t [Hk [Ht0 Ht]]. split; [exact Hk|].
      exists (t * 1000). split; [reflexivity|].
      assert (t * 1000 <= Xmax / 1000 * 1000)
        by (apply Qmult_le_compat_r; lra).
      assert (0 <= t * 1000) by (apply Qmult_le_0_compat; lra).
      split; lra.
    + eexists. eexists. split; [reflexivity|]. split; [reflexivity|].
      lra.
Qed.

Lemma distance_ticks_in_frame_witness :
  0 <= 3000 /\ (1 <= 1)%Z /\
  exists ticks, distList "Kilometers" 0 3000 (inject_Z 1) = Some ticks /\
    ticks <> [] /\
    Forall (fun x => exists sx, distpnt_x "Kilometers" x = Some sx /\
                                0 <= sx <= 3000) ticks.
Proof.
  assert (H1 : 0 <= 3000) by (vm_compute; discriminate).
  assert (H2 : (1 <= 1)%Z) by lia.
  split; [exact H1|]. split; [exact H2|].
  eexists. split; [reflexivity|].
  destruct (distance_ticks_in_frame "Kilometers" 3000 1 _
              (or_intror eq_refl) H1 H2 eq_refl) as (Hne & Hall & _).
  split; [exact Hne|].
  eapply Forall_impl; [|exact Hall]. intros x [_ Hx]. exact Hx.
Defined.

End DistanceTickFacts.

Section FrameFacts.
Import Num GridLines GridFrame.

Local Open Scope string_scope.

Lemma py_int_nonneg q : 0 <= q -> py_int q = Qfloor q.
Proof.
  intros H. unfold py_int. apply Qltb_false in H. rewrite H. reflexivity.
Qed.

(** Rounding to the nearest multiple and stepping one interval down when
    the result is above the integer part: for a value that is not negative
    this is rounding down to a multiple. *)
Lemma bottom_rounds_down q yInt :
  0 <= q -> (1 <= yInt)%Z ->
  (if Qltb (inject_Z (py_int q)) (round2int q (inject_Z yInt))
   then round2int q (inject_Z yInt) - inject_Z yInt
   else round2int q (inject_Z yInt))
  == inject_Z yInt * inject_Z (Qfloor (q / inject_Z yInt)).
Proof.
  intros Hq Hy.
  assert (HY : 1 <= inject_Z yInt)
    by (change 1 with (inject_Z 1); rewrite <- Zle_Qle; exact Hy).
  rewrite (py_int_nonneg _ Hq).
  assert (Hdiv : inject_Z yInt * (q / inject_Z yInt) == q)
    by (apply Qmult_div_r; lra).
  pose proof (Qfloor_le (q / inject_Z yInt)) as Hlo.
  pose proof (Qlt_floor (q / inject_Z yInt)) as Hhi.
  pose proof (Qfloor_le q) as Hfq.
  set (f := Qfloor (q / inject_Z yInt)) in *.
  assert (Hlo' : inject_Z yInt * inject_Z f <= q)
    by (rewrite <- Hdiv; apply Qmult_le_l; [lra | exact Hlo]).
  assert (Hhi' : q < inject_Z yInt * inject_Z (f + 1))
    by (rewrite <- Hdiv at 1; apply Qmult_lt_l; [lra | exact Hhi]).
  destruct (round2int_floor_or_next q (inject_Z yInt)) as [-> | ->]; fold f.
  - assert (Hle : (yInt * f <= Qfloor q)%Z).
    { rewrite <- (Qfloor_Z (yInt * f)). apply Qfloor_resp_le.
      rewrite inject_Z_mult. exact Hlo'. }
    assert (Hb : Qltb (inject_Z (Qfloor q)) (inject_Z yInt * inject_Z f) = false).
    { apply Qltb_false. rewrite <- inject_Z_mult, <- Zle_Qle. exact Hle. }
    rewrite Hb. reflexivity.
  - assert (Hb : Qltb (inject_Z (Qfloor q))
                      (inject_Z yInt * inject_Z (f + 1)) = true)
      by (apply Qltb_true; lra).
    rewrite Hb. rewrite inject_Z_plus. change (inject_Z 1) with 1. ring.
Qed.

(** The [Meters] branch over exact numbers, for any positive
    exaggeration: the minimum rounded down to a multiple of the interval. *)
Lemma newYmin_Meters_floor Ymin ve yInt :
  0 <= Ymin -> 0 < ve -> (1 <= yInt)%Z ->
  newYmin "Meters" Ymin ve yInt
  == inject_Z (yInt * Qfloor (Ymin / ve / inject_Z yInt)) * ve /\
  inject_Z (yInt * Qfloor (Ymin / ve / inject_Z yInt)) * ve <= Ymin /\
  Ymin < inject_Z (yInt * Qfloor (Ymin / ve / inject_Z yInt)) * ve
         + inject_Z yInt * ve.
Proof.
  intros HY Hve Hy.
  assert (HYi : 1 <= inject_Z yInt)
    by (change 1 with (inject_Z 1); rewrite <- Zle_Qle; exact Hy).
  assert (Hq0 : 0 <= Ymin / ve) by (apply Qle_shift_div_l; lra).
  assert (Eq' : Ymin / ve * ve == Ymin) by (field; lra).
  assert (Hdiv : inject_Z yInt * (Ymin / ve / inject_Z yInt) == Ymin / ve)
    by (apply Qmult_div_r; lra).
  pose proof (Qfloor_le (Ymin / ve / inject_Z yInt)) as Hlo.
  pose proof (Qlt_floor (Ymin / ve / inject_Z yInt)) as Hhi.
  rewrite inject_Z_plus in Hhi. change (inject_Z 1) with 1 in Hhi.
  split; [|split].
  - change (newYmin "Meters" Ymin ve yInt)
      with (let botY := round2int (Ymin / ve) (inject_Z yInt) in
            if Qltb (inject_Z (py_int (Ymin / ve))) botY
            then (botY * ve) - (inject_Z yInt * ve)
            else botY * ve).
    cbv zeta. rewrite inject_Z_mult.
    rewrite <- (bottom_rounds_down _ _ Hq0 Hy).
    destruct (Qltb _ _); ring.
  - rewrite inject_Z_mult.
    set (f := inject_Z (Qfloor (Ymin / ve / inject_Z yInt))) in *.
    assert (Hlo' : inject_Z yInt * f <= Ymin / ve)
      by (rewrite <- Hdiv; apply Qmult_le_l; [lra | exact Hlo]).
    rewrite <- Eq'. apply Qmult_le_compat_r; lra.
  - rewrite inject_Z_mult.
    set (f := inject_Z (Qfloor (Ymin / ve / inject_Z yInt))) in *.
    assert (Hhi' : Ymin / ve < inject_Z yInt * (f + 1))
      by (rewrite <- Hdiv; apply Qmult_lt_l; [lra | exact Hhi]).
    assert (H2 : Ymin / ve * ve < inject_Z yInt * (f + 1) * ve)
      by (apply Qmult_lt_r; assumption).
    rewrite Eq' in H2.
    setoid_replace (inject_Z yInt * f * ve + inject_Z yInt * ve)
      with (inject_Z yInt * (f + 1) * ve) by ring.
    exact H2.
Qed.

(** X15.  The frame's lower bound under [Meters], for a minimum that is not
    negative, a whole exaggeration of at least one and a whole interval of
    at least one: [newYmin] is the minimum rounded down to a whole number
    of exaggerated intervals, so it is not above [Ymin] and less than one
    exaggerated interval below it.  For a negative minimum this can fail:
    with [Ymin = -50.4], no exaggeration and an interval of 50 meters,
    [newYmin] is -50. *)
Theorem newYmin_rounds_down Ymin ve yInt :
  0 <= Ymin -> (1 <= ve)%Z -> (1 <= yInt)%Z ->
  newYmin "Meters" Ymin (inject_Z ve) yInt
  == inject_Z (yInt * Qfloor (Ymin / inject_Z ve / inject_Z yInt) * ve) /\
  newYmin "Meters" Ymin (inject_Z ve) yInt <= Ymin /\
  Ymin - newYmin "Meters" Ymin (inject_Z ve) yInt < inject_Z (yInt * ve) /\
  newYmin "Meters" (-504 # 10) (inject_Z 1) 50 == -50.
Proof.
  intros HY Hve Hy.
  assert (Hv : 0 < inject_Z ve)
    by (change 0 with (inject_Z 0); rewrite <- Zlt_Qlt; lia).
  destruct (newYmin_Meters_floor Ymin (inject_Z ve) yInt HY Hv Hy)
    as (Enew & Hle & Hlt).
  split; [|split; [|split]].
  - rewrite Enew, <- inject_Z_mult. reflexivity.
  - rewrite Enew. exact Hle.
  - rewrite Enew. rewrite !inject_Z_mult in *. lra.
  - reflexivity.
Qed.

Lemma newYmin_rounds_down_witness :
  0 <= 87 /\ (1 <= 2)%Z /\ (1 <= 50)%Z /\
  newYmin "Meters" 87 (inject_Z 2) 50 == 0 /\
  newYmin "Meters" 87 (inject_Z 2) 50 <= 87.
Proof.
  assert (H1 : 0 <= 87) by (vm_compute; discriminate).
  assert (H2 : (1 <= 2)%Z) by lia.
  assert (H3 : (1 <= 50)%Z) by lia.
  split; [exact H1|]. split; [exact H2|]. split; [exact H3|].
  split; [reflexivity|].
  exact (proj1 (proj2 (newYmin_rounds_down 87 2 50 H1 H2 H3))).
Defined.

End FrameFacts.

Section FrameTopFacts.
Import Num GridLines GridFrame.

Local Open Scope string_scope.

(** Above the integer part [F] of the quotient: the multiple of a whole
    interval nearest to [F], plus one interval, is at least [F + 1]. *)
Lemma next_tick_above_floor F yInt :
  (1 <= yInt)%Z ->
  inject_Z F + 1
  <= round2int (inject_Z F) (inject_Z yInt) + inject_Z yInt.
Proof.
  intros Hy.
  assert (HY : 1 <= inject_Z yInt)
    by (change 1 with (inject_Z 1); rewrite <- Zle_Qle; exact Hy).
  pose proof (round2int_near (inject_Z F) (inject_Z yInt)) as [Hlo _]; [lra|].
  assert (Eh : inject_Z yInt / 2 == inject_Z yInt * (1 # 2)) by field.
  rewrite Eh in Hlo. clear Eh.
  unfold round2int in *.
  set (r := py_round (inject_Z F / inject_Z yInt)) in *.
  assert (Hlt : inject_Z F < inject_Z (yInt * r + yInt))
    by (rewrite inject_Z_plus, inject_Z_mult; lra).
  rewrite <- Zlt_Qlt in Hlt.
  assert (Hle : (F + 1 <= yInt * r + yInt)%Z) by lia.
  rewrite Zle_Qle in Hle.
  rewrite !inject_Z_plus, inject_Z_mult in Hle.
  change (inject_Z 1) with 1 in Hle. exact Hle.
Qed.

Lemma frame_top_Meters Ymax ve yInt :
  frame_top "Meters" Ymax ve yInt
  = match Qcompare (round2int (py_floordiv Ymax ve) (inject_Z yInt) * ve)
                   Ymax with
    | Lt => Some (round2int (py_floordiv Ymax ve) (inject_Z yInt)
                  + inject_Z yInt,
                  (round2int (py_floordiv Ymax ve) (inject_Z yInt) * ve)
                  + (inject_Z yInt * ve))
    | Gt => Some (round2int (py_floordiv Ymax ve) (inject_Z yInt),
                  round2int (py_floordiv Ymax ve) (inject_Z yInt) * ve)
    | Eq => None
    end.
Proof. reflexivity. Qed.

Lemma frame_top_Feet Ymax ve yInt :
  frame_top "Feet" Ymax ve yInt
  = match Qcompare
            (round2int (py_floordiv Ymax ve / c0_3048) (inject_Z yInt)
             * c0_3048 * ve) Ymax with
    | Lt => Some (round2int (py_floordiv Ymax ve / c0_3048) (inject_Z yInt)
                  + inject_Z yInt,
                  (round2int (py_floordiv Ymax ve / c0_3048) (inject_Z yInt)
                   * c0_3048 * ve)
                  + (inject_Z yInt * c0_3048 * ve))
    | Gt => Some (round2int (py_floordiv Ymax ve / c0_3048) (inject_Z yInt),
                  round2int (py_floordiv Ymax ve / c0_3048) (inject_Z yInt)
                  * c0_3048 * ve)
    | Eq => None
    end.
Proof. reflexivity. Qed.

(** The frame's upper bound over exact numbers, for any positive
    exaggeration. *)
Lemma frame_top_exact Ymax ve yInt :
  0 < ve ->
  ((1 <= yInt)%Z ->
   (forall t y, frame_top "Meters" Ymax ve yInt = Some (t, y) ->
      Ymax < y /\ y == t * ve) /\
   (frame_top "Meters" Ymax ve yInt = None <->
    round2int (py_floordiv Ymax ve) (inject_Z yInt) * ve == Ymax)) /\
  ((7 <= yInt)%Z ->
   (forall t y, frame_top "Feet" Ymax ve yInt = Some (t, y) ->
      Ymax < y /\ y == t * c0_3048 * ve) /\
   (frame_top "Feet" Ymax ve yInt = None <->
    round2int (py_floordiv Ymax ve / c0_3048) (inject_Z yInt) * c0_3048 * ve
    == Ymax)).
Proof.
  intros Hve.
  assert (Hdiv : Ymax / ve * ve == Ymax) by (field; lra).
  pose proof (Qlt_floor (Ymax / ve)) as Hfl.
  rewrite inject_Z_plus in Hfl. change (inject_Z 1) with 1 in Hfl.
  assert (Hfl' : Ymax < (inject_Z (Qfloor (Ymax / ve)) + 1) * ve)
    by (rewrite <- Hdiv at 1; apply Qmult_lt_r; assumption).
  split.
  - intros Hy. rewrite frame_top_Meters. unfold py_floordiv.
    pose proof (next_tick_above_floor (Qfloor (Ymax / ve)) yInt Hy) as Hnext.
    set (E := round2int (inject_Z (Qfloor (Ymax / ve))) (inject_Z yInt)) in *.
    assert (Hnext' : (inject_Z (Qfloor (Ymax / ve)) + 1) * ve
                     <= (E + inject_Z yInt) * ve)
      by (apply Qmult_le_compat_r; lra).
    destruct (Qcompare (E * ve) Ymax) eqn:Ec.
    + apply Qeq_alt in Ec. split; [intros t y [=]|].
      split; [intros _; exact Ec | intros _; reflexivity].
    + apply Qlt_alt in Ec. split.
      * intros t y [= <- <-]. split; [|ring].
        setoid_replace (E * ve + inject_Z yInt * ve)
          with ((E + inject_Z yInt) * ve) by ring. lra.
      * split; [discriminate|]. intros H. lra.
    + apply Qgt_alt in Ec. split.
      * intros t y [= <- <-]. split; [exact Ec | reflexivity].
      * split; [discriminate|]. intros H. lra.
  - intros Hy. rewrite frame_top_Feet. unfold py_floordiv.
    assert (HY : 7 <= inject_Z yInt)
      by (change 7 with (inject_Z 7); rewrite <- Zle_Qle; exact Hy).
    pose proof (round2int_near (inject_Z (Qfloor (Ymax / ve)) / c0_3048)
                  (inject_Z yInt)) as [Hlo _]; [lra|].
    assert (Eh : inject_Z yInt / 2 == inject_Z yInt * (1 # 2)) by field.
    rewrite Eh in Hlo. clear Eh.
    assert (Ec0 : inject_Z (Qfloor (Ymax / ve)) / c0_3048 * c0_3048
                  == inject_Z (Qfloor (Ymax / ve)))
      by (field; discriminate).
    set (F := inject_Z (Qfloor (Ymax / ve))) in *.
    set (E := round2int (F / c0_3048) (inject_Z yInt)) in *.
    assert (H1 : (F / c0_3048 - inject_Z yInt * (1 # 2)) * c0_3048
                 <= E * c0_3048)
      by (apply Qmult_le_compat_r; [lra | discriminate]).
    assert (H2 : F + 1 <= (E + inject_Z yInt) * c0_3048).
    { setoid_replace ((E + inject_Z yInt) * c0_3048)
        with (E * c0_3048 + inject_Z yInt * c0_3048) by ring.
      setoid_replace ((F / c0_3048 - inject_Z yInt * (1 # 2)) * c0_3048)
        with (F / c0_3048 * c0_3048 - inject_Z yInt * (1 # 2) * c0_3048)
        in H1 by ring.
      rewrite Ec0 in H1. unfold c0_3048 in *. lra. }
    assert (H3 : (F + 1) * ve <= (E + inject_Z yInt) * c0_3048 * ve)
      by (apply Qmult_le_compat_r; lra).
    destruct (Qcompare (E * c0_3048 * ve) Ymax) eqn:Ec.
    + apply Qeq_alt in Ec. split; [intros t y [=]|].
      split; [intros _; exact Ec | intros _; reflexivity].
    + apply Qlt_alt in Ec. split.
      * intros t y [= <- <-]. split; [|ring].
        setoid_replace (E * c0_3048 * ve + inject_Z yInt * c0_3048 * ve)
          with ((E + inject_Z yInt) * c0_3048 * ve) by ring. lra.
      * split; [discriminate|]. intros H. lra.
    + apply Qgt_alt in Ec. split.
      * intros t y [= <- <-]. split; [exact Ec | reflexivity].
      * split; [discriminate|]. intros H. lra.
Qed.

(** X16.  The frame's upper bound for a whole exaggeration of at least
    one.  Under [Meters] with a whole interval of at least one, the bound
    that is built lies strictly above [Ymax] and is the top tick, a whole
    number of intervals, converted back; nothing is built (the names stay
    unbound) exactly when the rounded tick, converted back, equals [Ymax].
    Under [Feet] with a whole interval of at least seven, the bound that is
    built lies strictly above [Ymax]. *)
Theorem frame_top_above Ymax ve yInt :
  (1 <= ve)%Z ->
  ((1 <= yInt)%Z ->
   (forall t y, frame_top "Meters" Ymax (inject_Z ve) yInt = Some (t, y) ->
      Ymax < y /\ y == t * inject_Z ve /\
      exists k, t == inject_Z (yInt * k)) /\
   (frame_top "Meters" Ymax (inject_Z ve) yInt = None <->
    round2int (py_floordiv Ymax (inject_Z ve)) (inject_Z yInt) * inject_Z ve
    == Ymax)) /\
  ((7 <= yInt)%Z ->
   forall t y, frame_top "Feet" Ymax (inject_Z ve) yInt = Some (t, y) ->
     Ymax < y).
Proof.
  intros Hve.
  assert (Hv : 0 < inject_Z ve)
    by (change 0 with (inject_Z 0); rewrite <- Zlt_Qlt; lia).
  destruct (frame_top_exact Ymax (inject_Z ve) yInt Hv) as [HM HF].
  split.
  - intros Hy. destruct (HM Hy) as [Hsome Hnone].
    split; [|exact Hnone].
    intros t y Htop. destruct (Hsome t y Htop) as [Habove Ey].
    split; [exact Habove|]. split; [exact Ey|].
    rewrite frame_top_Meters in Htop.
    destruct (Qcompare _ _) in Htop; [discriminate | |];
      injection Htop as <- _; unfold round2int.
    + exists (py_round (py_floordiv Ymax (inject_Z ve) / inject_Z yInt) + 1)%Z.
      rewrite inject_Z_mult, inject_Z_plus. change (inject_Z 1) with 1. ring.
    + eexists. rewrite inject_Z_mult. reflexivity.
  - intros Hy t y Htop. exact (proj1 (proj1 (HF Hy) t y Htop)).
Qed.

Lemma frame_top_above_witness :
  (1 <= 2)%Z /\ (1 <= 50)%Z /\
  exists t y, frame_top "Meters" 503 (inject_Z 2) 50 = Some (t, y) /\
    y == 600 /\ 503 < y.
Proof.
  assert (H1 : (1 <= 2)%Z) by lia.
  assert (H2 : (1 <= 50)%Z) by lia.
  split; [exact H1|]. split; [exact H2|].
  eexists. eexists. split; [reflexivity|]. split; [reflexivity|].
  exact (proj1 (proj1 (proj1 (frame_top_above 503 2 50 H1) H2) _ _ eq_refl)).
Defined.

(** X17.  The extent of the frame before rounding: [Ymax] is the larger of the two
    maxima; with a bedrock profile [Ymin] is the smaller of the boreholes'
    minimum and the bedrock minimum scaled by the unit factor and the
    exaggeration, and without one it is the boreholes' minimum; with a
    bedrock profile and a unit name that is neither [Feet] nor [Meters]
    nothing binds [Ymin]. *)
Theorem frame_extent topoYMax bhYmax elevUnits bhYmin bdrkYmin ve :
  (topoYMax <= Ymax_of topoYMax bhYmax /\ bhYmax <= Ymax_of topoYMax bhYmax /\
   (Ymax_of topoYMax bhYmax = topoYMax \/ Ymax_of topoYMax bhYmax = bhYmax)) /\
  Ymin_of elevUnits bhYmin None ve = Some bhYmin /\
  (forall Ymin, Ymin_of "Meters" bhYmin (Some bdrkYmin) ve = Some Ymin ->
     Ymin <= bhYmin /\ Ymin <= bdrkYmin * inject_Z ve /\
     (Ymin = bhYmin \/ Ymin = bdrkYmin * inject_Z ve)) /\
  (forall Ymin, Ymin_of "Feet" bhYmin (Some bdrkYmin) ve = Some Ymin ->
     Ymin <= bhYmin /\ Ymin <= bdrkYmin * c0_3048 * inject_Z ve /\
     (Ymin = bhYmin \/ Ymin = bdrkYmin * c0_3048 * inject_Z ve)) /\
  (elevUnits <> "Feet" -> elevUnits <> "Meters" ->
   Ymin_of elevUnits bhYmin (Some bdrkYmin) ve = None).
Proof.
  split; [|split; [reflexivity|split; [|split]]].
  - unfold Ymax_of. destruct (Qcompare topoYMax bhYmax) eqn:E.
    + apply Qeq_alt in E. repeat split; auto; lra.
    + apply Qlt_alt in E. repeat split; auto; lra.
    + apply Qgt_alt in E. repeat split; auto; lra.
  - simpl. unfold lower_of. intros Ymin [= <-].
    destruct (Qcompare bhYmin (bdrkYmin * inject_Z ve)) eqn:E.
    + apply Qeq_alt in E. repeat split; auto; lra.
    + apply Qlt_alt in E. repeat split; auto; lra.
    + apply Qgt_alt in E. repeat split; auto; lra.
  - simpl. unfold lower_of. intros Ymin [= <-].
    destruct (Qcompare bhYmin (bdrkYmin * c0_3048 * inject_Z ve)) eqn:E.
    + apply Qeq_alt in E. repeat split; auto; lra.
    + apply Qlt_alt in E. repeat split; auto; lra.
    + apply Qgt_alt in E. repeat split; auto; lra.
  - intros HF HM. unfold Ymin_of.
    apply String.eqb_neq in HF, HM. rewrite HF, HM. reflexivity.
Qed.

End FrameTopFacts.

Section ElevationTickFacts.
Import Num GridLines GridFrame.

Local Open Scope string_scope.

(** Rounding a whole multiple of the interval leaves it as it is. *)
Lemma round2int_multiple k yInt :
  (1 <= yInt)%Z ->
  round2int (inject_Z (yInt * k)) (inject_Z yInt) == inject_Z (yInt * k).
Proof.
  intros Hy.
  assert (HYi : 1 <= inject_Z yInt)
    by (change 1 with (inject_Z 1); rewrite <- Zle_Qle; exact Hy).
  unfold round2int.
  assert (E : inject_Z (yInt * k) / inject_Z yInt == inject_Z k)
    by (rewrite inject_Z_mult; field; lra).
  rewrite (py_round_comp _ _ E), py_round_Z, inject_Z_mult. reflexivity.
Qed.

Lemma elevList_Meters Ymin Ymax ve yInt :
  elevList "Meters" Ymin Ymax ve yInt
  = match frame_top "Meters" Ymax ve yInt with
    | Some (newElevTickMax, _) =>
        Some (np_arange
                (round2int (py_floordiv (newYmin "Meters" Ymin ve yInt) ve)
                           (inject_Z yInt))
                (newElevTickMax + 1) (inject_Z yInt))
    | None => None
    end.
Proof. reflexivity. Qed.

(** The top tick is a whole multiple of the interval, and the bound built
    from it lies above [Ymax]. *)
Lemma frame_top_Meters_multiple Ymax ve yInt t y :
  0 < ve -> (1 <= yInt)%Z ->
  frame_top "Meters" Ymax ve yInt = Some (t, y) ->
  exists m, t == inject_Z (yInt * m) /\ y == t * ve /\ Ymax < y.
Proof.
  intros Hve Hy Htop. rewrite frame_top_Meters in Htop.
  pose proof (next_tick_above_floor (Qfloor (Ymax / ve)) yInt Hy) as Hn.
  fold (py_floordiv Ymax ve) in Hn.
  pose proof (Qlt_floor (Ymax / ve)) as Hfl.
  rewrite inject_Z_plus in Hfl. change (inject_Z 1) with 1 in Hfl.
  fold (py_floordiv Ymax ve) in Hfl.
  assert (Hdiv : Ymax / ve * ve == Ymax) by (field; lra).
  assert (Em : exists r, round2int (py_floordiv Ymax ve) (inject_Z yInt)
                         = inject_Z yInt * inject_Z r)
    by (eexists; reflexivity).
  destruct Em as [r Er]. rewrite Er in *.
  destruct (Qcompare (inject_Z yInt * inject_Z r * ve) Ymax) eqn:Ec;
    [discriminate | |]; injection Htop as <- <-.
  - exists (r + 1)%Z.
    split; [rewrite inject_Z_mult, inject_Z_plus;
            change (inject_Z 1) with 1; ring|].
    split; [ring|].
    assert (H1 : Ymax / ve * ve
                 < (inject_Z yInt * inject_Z r + inject_Z yInt) * ve)
      by (apply Qmult_lt_r; [assumption | lra]).
    rewrite Hdiv in H1.
    setoid_replace (inject_Z yInt * inject_Z r * ve + inject_Z yInt * ve)
      with ((inject_Z yInt * inject_Z r + inject_Z yInt) * ve) by ring.
    exact H1.
  - exists r. apply Qgt_alt in Ec.
    split; [rewrite inject_Z_mult; reflexivity|].
    split; [reflexivity | exact Ec].
Qed.

(** [arange] from one multiple of the step to another, plus one. *)
Lemma np_arange_between a t f m yInt :
  (1 <= yInt)%Z -> (f <= m)%Z ->
  a == inject_Z (yInt * f) -> t == inject_Z (yInt * m) ->
  np_arange a (t + 1) (inject_Z yInt)
  = map (fun i => a + inject_Z (Z.of_nat i) * inject_Z yInt)
        (seq 0 (S (Z.to_nat (m - f)))).
Proof.
  intros Hy Hfm Ea Et.
  assert (HYi : 1 <= inject_Z yInt)
    by (change 1 with (inject_Z 1); rewrite <- Zle_Qle; exact Hy).
  unfold np_arange.
  assert (E : (t + 1 - a) / inject_Z yInt
              == (inject_Z yInt * inject_Z (m - f) + 1 - 0) / inject_Z yInt).
  { rewrite Ea, Et, !inject_Z_mult.
    replace (m - f)%Z with (m + - f)%Z by lia.
    rewrite inject_Z_plus, inject_Z_opp. field. lra. }
  rewrite (Qceiling_comp _ _ E).
  rewrite np_arange_count by (try lia; try assumption; reflexivity).
  rewrite Z2Nat.inj_add by lia. change (Z.to_nat 1) with 1%nat.
  rewrite Nat.add_1_r. reflexivity.
Qed.

(** The elevation ticks under [Meters] over exact numbers, for any positive
    exaggeration. *)
Lemma elevList_exact Ymin Ymax ve yInt t y :
  0 <= Ymin -> Ymin <= Ymax -> 0 < ve -> (1 <= yInt)%Z ->
  frame_top "Meters" Ymax ve yInt = Some (t, y) ->
  exists ticks,
    elevList "Meters" Ymin Ymax ve yInt = Some ticks /\
    ticks <> [] /\
    hd 0 ticks * ve == newYmin "Meters" Ymin ve yInt /\
    last ticks 0 * ve == y /\
    Forall (fun e => (exists k, e == inject_Z yInt * inject_Z k) /\
                     newYmin "Meters" Ymin ve yInt <= e * ve <= y) ticks.
Proof.
  intros HY HYY Hve Hy Htop.
  assert (HYi : 1 <= inject_Z yInt)
    by (change 1 with (inject_Z 1); rewrite <- Zle_Qle; exact Hy).
  destruct (newYmin_Meters_floor Ymin ve yInt HY Hve Hy) as (Enew & Hnew & _).
  set (f := Qfloor (Ymin / ve / inject_Z yInt)) in *.
  assert (Ea : round2int (py_floordiv (newYmin "Meters" Ymin ve yInt) ve)
                         (inject_Z yInt) == inject_Z (yInt * f)).
  { assert (E1 : newYmin "Meters" Ymin ve yInt / ve == inject_Z (yInt * f))
      by (rewrite Enew; field; lra).
    unfold py_floordiv. rewrite (Qfloor_comp _ _ E1), Qfloor_Z.
    apply round2int_multiple. exact Hy. }
  destruct (frame_top_Meters_multiple Ymax ve yInt t y Hve Hy Htop)
    as (m & Et & Ey & Habove).
  assert (Hfm : (f <= m)%Z).
  { assert (H1 : inject_Z (yInt * f) * ve < inject_Z (yInt * m) * ve)
      by (rewrite <- Et, <- Ey; lra).
    apply Qmult_lt_r in H1; [|exact Hve].
    rewrite <- Zlt_Qlt in H1. nia. }
  rewrite elevList_Meters, Htop.
  set (a := round2int (py_floordiv (newYmin "Meters" Ymin ve yInt) ve)
                      (inject_Z yInt)) in *.
  eexists. split; [reflexivity|].
  rewrite (np_arange_between a t f m yInt Hy Hfm Ea Et).
  assert (Elast : a + inject_Z (Z.of_nat (Z.to_nat (m - f))) * inject_Z yInt
                  == t).
  { rewrite Z2Nat.id by lia. rewrite Ea, Et, !inject_Z_mult.
    replace (m - f)%Z with (m + - f)%Z by lia.
    rewrite inject_Z_plus, inject_Z_opp. ring. }
  split; [|split; [|split]].
  - rewrite seq_S, map_app. intros H. symmetry in H.
    apply app_cons_not_nil in H. exact H.
  - simpl. rewrite Enew, Ea. ring.
  - rewrite last_map_seq, Elast, Ey. reflexivity.
  - apply Forall_forall. intros e He.
    apply in_map_iff in He. destruct He as (i & <- & Hi).
    apply in_seq in Hi.
    assert (Ei : a + inject_Z (Z.of_nat i) * inject_Z yInt
                 == inject_Z yInt * inject_Z (f + Z.of_nat i))
      by (rewrite Ea, inject_Z_mult, inject_Z_plus; ring).
    split; [eexists; exact Ei|].
    assert (Hi0 : 0 <= inject_Z (Z.of_nat i))
      by (change 0 with (inject_Z 0); rewrite <- Zle_Qle; lia).
    assert (Hik : inject_Z (Z.of_nat i)
                  <= inject_Z (Z.of_nat (Z.to_nat (m - f))))
      by (rewrite <- Zle_Qle; lia).
    assert (H0 : 0 <= inject_Z (Z.of_nat i) * inject_Z yInt)
      by (apply Qmult_le_0_compat; lra).
    assert (H1 : inject_Z (Z.of_nat i) * inject_Z yInt
                 <= inject_Z (Z.of_nat (Z.to_nat (m - f))) * inject_Z yInt)
      by (apply Qmult_le_compat_r; lra).
    assert (Ha : a * ve == newYmin "Meters" Ymin ve yInt)
      by (rewrite Enew, Ea; reflexivity).
    rewrite <- Ha, Ey, <- Elast. split; apply Qmult_le_compat_r; lra.
Qed.

(** X18.  Under [Meters], for [0 <= Ymin <= Ymax], a whole exaggeration of
    at least one and a whole interval of at least one: whenever the frame's
    top is built, the elevation ticks are built too, they are whole
    multiples of the interval, the first one converted back is the frame's
    bottom [newYmin], the last one converted back is the frame's top
    [newYmax], and every tick line lies between the two. *)
Theorem elevList_spans_frame Ymin Ymax ve yInt t y :
  0 <= Ymin -> Ymin <= Ymax -> (1 <= ve)%Z -> (1 <= yInt)%Z ->
  frame_top "Meters" Ymax (inject_Z ve) yInt = Some (t, y) ->
  exists ticks,
    elevList "Meters" Ymin Ymax (inject_Z ve) yInt = Some ticks /\
    ticks <> [] /\
    hd 0 ticks * inject_Z ve == newYmin "Meters" Ymin (inject_Z ve) yInt /\
    last ticks 0 * inject_Z ve == y /\
    Forall (fun e => (exists k, e == inject_Z yInt * inject_Z k) /\
                     newYmin "Meters" Ymin (inject_Z ve) yInt
                     <= e * inject_Z ve <= y) ticks.
Proof.
  intros HY HYY Hve Hy Htop.
  assert (Hv : 0 < inject_Z ve)
    by (change 0 with (inject_Z 0); rewrite <- Zlt_Qlt; lia).
  exact (elevList_exact Ymin Ymax (inject_Z ve) yInt t y HY HYY Hv Hy Htop).
Qed.

Lemma elevList_spans_frame_witness :
  0 <= 87 /\ 87 <= 503 /\ (1 <= 2)%Z /\ (1 <= 50)%Z /\
  exists ticks,
    elevList "Meters" 87 503 (inject_Z 2) 50 = Some ticks /\
    Forall2 Qeq ticks [0; 50; 100; 150; 200; 250; 300] /\
    hd 0 ticks * inject_Z 2 == newYmin "Meters" 87 (inject_Z 2) 50 /\
    last ticks 0 * inject_Z 2 == 600.
Proof.
  assert (H1 : 0 <= 87) by (vm_compute; discriminate).
  assert (H2 : 87 <= 503) by (vm_compute; discriminate).
  assert (H3 : (1 <= 2)%Z) by lia.
  assert (H4 : (1 <= 50)%Z) by lia.
  split; [exact H1|]. split; [exact H2|]. split; [exact H3|].
  split; [exact H4|].
  destruct (elevList_spans_frame 87 503 2 50 _ _ H1 H2 H3 H4 eq_refl)
    as (ticks & He & _ & Hhd & Hlast & _).
  exists ticks. split; [exact He|].
  split; [|split; [exact Hhd | exact Hlast]].
  injection He as <-. vm_compute. repeat constructor.
Defined.

(** *** Interval sticks *)

(** X19.  [PERCENT_DIST] for a positive selection distance is not negative, does
    not depend on the side of the line the borehole lies on, and is at most
    100 for a borehole within the selection distance. *)
Theorem PERCENT_DIST_bounds Distance buff :
  0 < buff ->
  0 <= Intervals.PERCENT_DIST Distance buff /\
  Intervals.PERCENT_DIST (- Distance) buff
    == Intervals.PERCENT_DIST Distance buff /\
  (Qabs Distance <= buff -> Intervals.PERCENT_DIST Distance buff <= 100).
Proof.
  intros Hb. unfold Intervals.PERCENT_DIST, Intervals.Dist2Xsec.
  pose proof (Qabs_nonneg Distance) as Hn.
  assert (Hd : 0 <= Qabs Distance / buff) by (apply Qle_shift_div_l; lra).
  split; [|split].
  - apply Qmult_le_0_compat; [exact Hd | discriminate].
  - rewrite Qabs_opp. reflexivity.
  - intros Hle.
    assert (H1 : Qabs Distance / buff <= 1)
      by (apply Qle_shift_div_r; lra).
    assert (H2 : Qabs Distance / buff * 100 <= 1 * 100)
      by (apply Qmult_le_compat_r; [exact H1 | discriminate]).
    lra.
Qed.

Lemma PERCENT_DIST_bounds_witness :
  0 < 100 /\ Qabs (-25) <= 100 /\ Intervals.PERCENT_DIST (-25) 100 <= 100.
Proof.
  assert (H1 : 0 < 100) by reflexivity.
  assert (H2 : Qabs (-25) <= 100) by (vm_compute; discriminate).
  split; [exact H1|]. split; [exact H2|].
  exact (proj2 (proj2 (PERCENT_DIST_bounds (-25) 100 H1)) H2).
Defined.

End ElevationTickFacts.
